(** * Reconciliation of Coverity findings with GitLab merge-request discussions

    A shallow embedding of the second program of [src/index.ts]
    (the [coverity-gitlab] entry point, [main]) together with the properties
    of its reconciliation loop.

    The program is sequential: every [await] is a synchronous step of the
    model.  Calls to the outside world are recorded, in order, in a trace of
    events; what the outside world answers is given by a [World] record.
    The functions imported from [@jcroall/synopsys-sig-node] and the
    JavaScript built-in [parseInt] are taken as an interface ([Externals]). *)

From Stdlib Require Import ZArith.
From stdpp Require Import gmap strings list pretty.

Local Open Scope Z_scope.
Local Open Scope list_scope.

(** ** JavaScript strings and values *)

Module JS.

(** [s.startsWith(p)] *)
Fixpoint startsWith (s p : string) : bool :=
  match p, s with
  | EmptyString, _ => true
  | String _ _, EmptyString => false
  | String b p', String a s' => if Ascii.eqb a b then startsWith s' p' else false
  end.

(** [s.includes(needle)]: [needle] occurs in [s] as a substring. *)
Fixpoint includes (s needle : string) : bool :=
  startsWith s needle ||
  match s with
  | EmptyString => false
  | String _ s' => includes s' needle
  end.

(** Truthiness of a value that is a string or [undefined]. *)
Definition truthy (v : option string) : bool :=
  match v with
  | Some (String _ _) => true
  | _ => false
  end.

(** [`${v}`] for a value that is a string or [undefined]. *)
Definition template (v : option string) : string :=
  match v with
  | Some s => s
  | None => "undefined"
  end.

(** String-keyed properties every array inherits from [Array.prototype]
    and [Object.prototype] (ECMAScript 2023). *)
Definition Array_prototype_keys : list string :=
  [ "constructor"; "at"; "concat"; "copyWithin"; "entries"; "every"; "fill";
    "filter"; "find"; "findIndex"; "findLast"; "findLastIndex"; "flat";
    "flatMap"; "forEach"; "includes"; "indexOf"; "join"; "keys";
    "lastIndexOf"; "map"; "pop"; "push"; "reduce"; "reduceRight";
    "reverse"; "shift"; "slice"; "some"; "sort"; "splice";
    "toLocaleString"; "toReversed"; "toSorted"; "toSpliced"; "toString";
    "unshift"; "values"; "with";
    "__defineGetter__"; "__defineSetter__"; "__lookupGetter__";
    "__lookupSetter__"; "__proto__"; "hasOwnProperty"; "isPrototypeOf";
    "propertyIsEnumerable"; "valueOf" ].

(** [key in arr] for an array literal [arr]: the operator asks whether
    [key] names a property of the array object.  The own properties are
    the indices [0 .. arr.length - 1] and [length]; the elements of the
    array play no role. *)
Definition in_array {A} (key : string) (arr : list A) : bool :=
  existsb (λ i : nat, String.eqb key (pretty i)) (seq 0 (length arr))
  || String.eqb key "length"
  || existsb (String.eqb key) Array_prototype_keys.

(** Outcome of awaiting a promise. *)
Inductive Promise (A : Type) : Type :=
| Resolved (a : A)
| Rejected (message : string).
Global Arguments Resolved {A} a.
Global Arguments Rejected {A} message.

End JS.

Import JS (Promise, Resolved, Rejected).

(** ** Data model *)

(** An issue of the Coverity results document.  The program reads three
    fields; [otherFields] stands for the rest of [CoverityIssueOccurrence],
    which only the message renderers look at. *)
Record Issue := {
  mergeKey : string;
  strippedMainEventFilePathname : string;
  mainEventLineNumber : Z;
  otherFields : string
}.

(** [CoverityProjectIssue], the server's record for a merge key. *)
Record CoverityProjectIssue := {
  action : string;
  classification : string;
  firstSnapshotId : Z;
  lastSnapshotId : Z
}.

Record Position := {
  new_path : string;
  new_line : option Z
}.

Record Note := {
  note_id : Z;
  body : string;
  position : option Position
}.

(** A discussion as the listing service returns it. *)
Record ApiDiscussion := {
  api_id : string;
  api_notes : list Note
}.

(** A discussion of the working pool.  Every access in the program goes
    through [discussion.notes![0]], here [root]; see [review_filter] for
    discussions without notes. *)
Record Discussion := {
  id : string;
  root : Note;
  replies : list Note
}.

Global Instance Position_eq_dec : EqDecision Position.
Proof. solve_decision. Defined.
Global Instance Note_eq_dec : EqDecision Note.
Proof. solve_decision. Defined.
Global Instance Discussion_eq_dec : EqDecision Discussion.
Proof. solve_decision. Defined.

(** ** Classification of an issue against the server (lines 383-390) *)

Definition classify (projectIssue : option CoverityProjectIssue) : bool * bool :=
  let ignoredOnServer := false in
  let newOnServer := true in
  match projectIssue with
  | Some projectIssue =>
      let ignoredOnServer :=
        String.eqb (action projectIssue) "Ignore"
        || JS.in_array (classification projectIssue) ["False Positive"; "Intentional"] in
      let newOnServer :=
        Z.eqb (firstSnapshotId projectIssue) (lastSnapshotId projectIssue) in
      (ignoredOnServer, newOnServer)
  | None => (ignoredOnServer, newOnServer)
  end.

Definition ignoredOnServer (mergeKeyToIssue : gmap string CoverityProjectIssue)
    (issue : Issue) : bool :=
  fst (classify (mergeKeyToIssue !! mergeKey issue)).

Definition newOnServer (mergeKeyToIssue : gmap string CoverityProjectIssue)
    (issue : Issue) : bool :=
  snd (classify (mergeKeyToIssue !! mergeKey issue)).

(** ** The outside world *)

(** What the program imports from [@jcroall/synopsys-sig-node], and
    [parseInt(_, 10)] of the JavaScript runtime ([None] is [NaN]). *)
Class Externals := {
  DiffMap : Type;
  parseInt10 : string → option Z;
  COVERITY_COMMENT_PREFACE : string;
  coverityCreateReviewCommentMessage : Issue → string;
  coverityCreateIssueCommentMessage : Issue → string → string;
  coverityIsInDiff : Issue → DiffMap → bool;
  coverityIsPresent : string → bool;
  coverityCreateNoLongerPresentMessage : string → string;
  relatavize_path : string → string → string
}.

(** Options as [commander] parses them. *)
Record Options := {
  opt_json : option string;
  opt_coverityUrl : option string;
  opt_coverityProject : option string;
  opt_debug : bool
}.

(** The process: [process.argv.slice(2)], [program.opts()], [process.env]
    and [process.cwd()]. *)
Record Process := {
  argv : list string;
  options : Options;
  env : gmap string string;
  cwd : string
}.

(** The first four arguments of every GitLab call. *)
Record GitlabMR := {
  gitlab_url : option string;
  gitlab_token : option string;
  project_id : option string;
  mr_iid : option Z
}.

Inductive Request :=
| gitlabGetProject (url token project : option string)
| readResults (file : string)
| coverityMapMatchingMergeKeys (url user passphrase project : option string)
    (allUniqueMergeKeys : gset string)
| gitlabGetDiscussions (mr : GitlabMR)
| gitlabGetDiffMap (mr : GitlabMR)
| gitlabUpdateNote (mr : GitlabMR) (discussion_id : option Z) (note : Z)
    (new_body : string)
| gitlabCreateDiscussion (mr : GitlabMR) (line : Z) (filename : string)
    (new_body base_sha commit_sha : string)
| gitlabCreateDiscussionWithoutPosition (mr : GitlabMR) (line : Z)
    (filename : string) (new_body : string).

Inductive Level := debug | info | warn | error.

Inductive Event :=
| Log (level : Level) (message : string)
| Send (r : Request)
| OutputHelp
| SetLogLevel (level : Level).

Global Instance GitlabMR_eq_dec : EqDecision GitlabMR.
Proof. solve_decision. Defined.
Global Instance Request_eq_dec : EqDecision Request.
Proof. solve_decision. Defined.
Global Instance Level_eq_dec : EqDecision Level.
Proof. solve_decision. Defined.
Global Instance Event_eq_dec : EqDecision Event.
Proof. solve_decision. Defined.

(** The answers of the outside world.  [on_write n r] is the fate of the
    create or update request [r] sent after [n] earlier ones in the run:
    [None] when its promise resolves, [Some m] when it rejects with an error
    whose [message] is [m]. *)
Record World `{Externals} := {
  on_gitlabGetProject : Promise string;
  on_readResults : string → Promise (list Issue);
  on_coverityMapMatchingMergeKeys :
    gset string → Promise (gmap string CoverityProjectIssue);
  on_gitlabGetDiscussions : Promise (list ApiDiscussion);
  on_gitlabGetDiffMap : Promise DiffMap;
  on_write : nat → Request → option string
}.

(** How a run ends: [process.exit(code)], a plain [return] from [main], or
    a rejection nobody catches. *)
Inductive Outcome :=
| Exit (code : Z)
| Returned
| Uncaught (message : string).

(** ** Traces *)

Definition requests (t : list Event) : list Request :=
  omap (λ e, match e with Send r => Some r | _ => None end) t.

(** The create and update requests, the ones wrapped in [.catch]. *)
Definition is_write (r : Request) : bool :=
  match r with
  | gitlabUpdateNote _ _ _ _
  | gitlabCreateDiscussion _ _ _ _ _ _
  | gitlabCreateDiscussionWithoutPosition _ _ _ _ => true
  | _ => false
  end.

Definition write_requests (t : list Event) : list Request :=
  filter (λ r, is_write r = true) (requests t).

(** ** Program state *)

(** [review_discussions] is the mutable array of the program and [trace]
    lists the events so far.  [claimed] is ghost state: every discussion
    spliced out of the pool, with the issue it was spliced out for. *)
Record State := {
  review_discussions : list Discussion;
  trace : list Event;
  claimed : list (Issue * Discussion)
}.

Definition initial_state : State :=
  {| review_discussions := []; trace := []; claimed := [] |}.

Definition emit (e : Event) (s : State) : State :=
  {| review_discussions := review_discussions s;
     trace := trace s ++ [e];
     claimed := claimed s |}.

Definition logger (l : Level) (message : string) : State → State :=
  emit (Log l message).

Definition set_review_discussions (pool : list Discussion) (s : State) : State :=
  {| review_discussions := pool;
     trace := trace s;
     claimed := claimed s |}.

Definition claim (issue : Issue) (d : option Discussion) (s : State) : State :=
  {| review_discussions := review_discussions s;
     trace := trace s;
     claimed := claimed s ++ from_option (λ d, [(issue, d)]) [] d |}.

(** ** Arrays *)

Section Arrays.
Context {A : Type}.

Fixpoint findIndex_from (p : A → bool) (l : list A) (i : Z) : Z :=
  match l with
  | [] => -1
  | x :: l' => if p x then i else findIndex_from p l' (i + 1)
  end.

(** [l.findIndex(p)]; [-1] when no element satisfies [p]. *)
Definition findIndex (p : A → bool) (l : list A) : Z :=
  findIndex_from p l 0.

(** [l.splice(start, 1)]: the removed elements and the array that is
    left.  A negative [start] counts from the end of the array. *)
Definition splice1 (l : list A) (start : Z) : list A * list A :=
  let len := Z.of_nat (length l) in
  let n := Z.to_nat (if start <? 0 then Z.max (len + start) 0
                     else Z.min start len) in
  (take 1 (drop n l), take n l ++ drop (S n) l).

(** The idiom of lines 401-407 and 409-413:
    [i = l.findIndex(p); x = undefined; if (i !== -1) x = l.splice(i, 1)[0]]. *)
Definition extract (p : A → bool) (l : list A) : option A * list A :=
  let index := findIndex p l in
  if negb (index =? -1) then
    let '(removed, rest) := splice1 l index in (head removed, rest)
  else (None, l).
End Arrays.

(** ** The reconciliation engine *)

Section Engine.
Context `{Externals}.
Variable proc : Process.
Variable world : World.

Definition getenv (name : string) : option string := env proc !! name.

Definition merge_request_iid : option Z :=
  getenv "CI_MERGE_REQUEST_IID" ≫= parseInt10.

Definition gitlab : GitlabMR :=
  {| gitlab_url := getenv "CI_SERVER_URL";
     gitlab_token := getenv "GITLAB_TOKEN";
     project_id := getenv "CI_PROJECT_ID";
     mr_iid := merge_request_iid |}.

(** [x ? x : ''] *)
Definition or_empty (x : option string) : string :=
  if JS.truthy x then default EmptyString x else EmptyString.

Definition bool_string (b : bool) : string := if b then "true" else "false".

(** [await request.catch(error => logger.error(handler(error.message)))]
    for a create or update request: the request is sent; when it rejects,
    the handler logs and the rejection goes no further. *)
Definition await_catch (r : Request) (handler : string → string) (s : State) : State :=
  let sent := emit (Send r) s in
  match on_write world (length (write_requests (trace s))) r with
  | None => sent
  | Some message => logger error (handler message) sent
  end.

(** The two predicates given to [findIndex] (lines 401-403 and 409). *)
Definition positioned_match (issue : Issue) (discussion : Discussion) : bool :=
  bool_decide (position (root discussion) ≫= new_line = Some (mainEventLineNumber issue))
  && JS.includes (body (root discussion)) (mergeKey issue).

Definition comment_match (issue : Issue) (discussion : Discussion) : bool :=
  JS.includes (body (root discussion)) (mergeKey issue).

Definition update_request (discussion : Discussion) (new_body : string) : Request :=
  gitlabUpdateNote gitlab (parseInt10 (id discussion)) (note_id (root discussion)) new_body.

Definition already_reported (discussion : Discussion) : string :=
  "Issue already reported in discussion #" +:+ id discussion +:+ " note #"
    +:+ pretty (note_id (root discussion)) +:+ ", updating if necessary...".

(** Lines 392-399. *)
Definition reviewCommentBody (issue : Issue) : string :=
  coverityCreateReviewCommentMessage issue.

Definition file_link (issue : Issue) : string :=
  let path :=
    if JS.startsWith (strippedMainEventFilePathname issue) "/"
    then relatavize_path (cwd proc) (strippedMainEventFilePathname issue)
    else strippedMainEventFilePathname issue in
  JS.template (getenv "CI_SERVER_URL") +:+ "/"
    +:+ JS.template (getenv "CI_PROJECT_NAMESPACE") +:+ "/"
    +:+ JS.template (getenv "CI_PROJECT_NAME") +:+ "/-/blob/"
    +:+ JS.template (getenv "CI_COMMIT_REF_NAME") +:+ "/" +:+ path
    +:+ "#L" +:+ pretty (mainEventLineNumber issue).

Definition issueCommentBody (issue : Issue) : string :=
  coverityCreateIssueCommentMessage issue (file_link issue).

(** Lines 415-455: what is done for an issue once the lookups are made. *)
Definition act (ignored new : bool) (diff_map : DiffMap) (issue : Issue)
    (existing_discussion existing_comment : option Discussion) : State → State :=
  match existing_discussion, existing_comment with
  | Some existing_discussion, _ => λ s,
      let s := logger info (already_reported existing_discussion) s in
      if negb (String.eqb (body (root existing_discussion)) (reviewCommentBody issue))
      then await_catch (update_request existing_discussion (reviewCommentBody issue))
             (λ message, "Unable to update discussion: " +:+ message) s
      else s
  | None, Some existing_comment => λ s,
      let s := logger info (already_reported existing_comment) s in
      if negb (String.eqb (body (root existing_comment)) (issueCommentBody issue))
      then await_catch (update_request existing_comment (reviewCommentBody issue))
             (λ message, "Unable to update discussion: " +:+ message) s
      else s
  | None, None => λ s,
      if ignored then logger info "Issue ignored on server, no comment needed." s
      else if negb new
      then logger info "Issue already existed on server, no comment needed." s
      else if coverityIsInDiff issue diff_map then
        let s := logger info "Issue not reported, adding a comment to the review." s in
        await_catch
          (gitlabCreateDiscussion gitlab (mainEventLineNumber issue)
             (strippedMainEventFilePathname issue) (reviewCommentBody issue)
             (or_empty (getenv "CI_MERGE_REQUEST_DIFF_BASE_SHA"))
             (or_empty (getenv "CI_COMMIT_SHA")))
          (λ message, "Unable to create discussion: " +:+ message) s
      else
        let s := logger info "Issue not reported, adding an issue comment." s in
        await_catch
          (gitlabCreateDiscussionWithoutPosition gitlab (mainEventLineNumber issue)
             (strippedMainEventFilePathname issue) (issueCommentBody issue))
          (λ message, "Unable to create discussion: " +:+ message) s
  end.

(** The requests [act] sends, read off its branches. *)
Definition act_requests (ignored new : bool) (diff_map : DiffMap) (issue : Issue)
    (existing_discussion existing_comment : option Discussion) : list Request :=
  match existing_discussion, existing_comment with
  | Some existing_discussion, _ =>
      if String.eqb (body (root existing_discussion)) (reviewCommentBody issue)
      then []
      else [update_request existing_discussion (reviewCommentBody issue)]
  | None, Some existing_comment =>
      if String.eqb (body (root existing_comment)) (issueCommentBody issue)
      then []
      else [update_request existing_comment (reviewCommentBody issue)]
  | None, None =>
      if ignored then []
      else if negb new then []
      else if coverityIsInDiff issue diff_map then
        [gitlabCreateDiscussion gitlab (mainEventLineNumber issue)
           (strippedMainEventFilePathname issue) (reviewCommentBody issue)
           (or_empty (getenv "CI_MERGE_REQUEST_DIFF_BASE_SHA"))
           (or_empty (getenv "CI_COMMIT_SHA"))]
      else
        [gitlabCreateDiscussionWithoutPosition gitlab (mainEventLineNumber issue)
           (strippedMainEventFilePathname issue) (issueCommentBody issue)]
  end.

(** Lines 381-455: the body of the loop over the issues. *)
Definition process_issue (mergeKeyToIssue : gmap string CoverityProjectIssue)
    (diff_map : DiffMap) (issue : Issue) (s : State) : State :=
  let s := logger info
    ("Found Coverity Issue " +:+ mergeKey issue +:+ " at "
       +:+ strippedMainEventFilePathname issue +:+ ":"
       +:+ pretty (mainEventLineNumber issue)) s in
  let projectIssue := mergeKeyToIssue !! mergeKey issue in
  let '(ignored, new) := classify projectIssue in
  let s :=
    match projectIssue with
    | Some _ =>
        logger info ("Issue state on server: ignored=" +:+ bool_string ignored
                       +:+ ", new=" +:+ bool_string new) s
    | None => s
    end in
  let '(existing_discussion, pool) :=
    extract (positioned_match issue) (review_discussions s) in
  let s := claim issue existing_discussion (set_review_discussions pool s) in
  let '(existing_comment, pool) :=
    extract (comment_match issue) (review_discussions s) in
  let s := claim issue existing_comment (set_review_discussions pool s) in
  act ignored new diff_map issue existing_discussion existing_comment s.

(** Line 380: [for (const issue of coverityIssues.issues)]. *)
Definition process_issues (mergeKeyToIssue : gmap string CoverityProjectIssue)
    (diff_map : DiffMap) (issues : list Issue) (s : State) : State :=
  foldl (λ s issue, process_issue mergeKeyToIssue diff_map issue s) s issues.

(** Lines 459-466: the body of the loop over what is left of the pool. *)
Definition sweep_discussion (discussion : Discussion) (s : State) : State :=
  if coverityIsPresent (body (root discussion)) then
    let s := logger info
      ("Discussion #" +:+ id discussion +:+ " Note #"
         +:+ pretty (note_id (root discussion))
         +:+ " represents a Coverity issue which is no longer present, updating comment to reflect resolution.") s in
    await_catch
      (update_request discussion
         (coverityCreateNoLongerPresentMessage (body (root discussion))))
      (λ message, "Unable to update note #" +:+ pretty (note_id (root discussion))
                    +:+ ": " +:+ message) s
  else s.

(** Line 458: [for (const discussion of review_discussions)]. *)
Definition sweep (s : State) : State :=
  foldl (λ s discussion, sweep_discussion discussion s) s (review_discussions s).

(** Lines 380-467. *)
Definition reconcile (mergeKeyToIssue : gmap string CoverityProjectIssue)
    (diff_map : DiffMap) (issues : list Issue) (s : State) : State :=
  sweep (process_issues mergeKeyToIssue diff_map issues s).

End Engine.

(** ** The program *)

(** A step of [main] either goes on with a value or ends the run. *)
Inductive Step (A : Type) : Type :=
| Continue (a : A)
| Stop (o : Outcome).
Global Arguments Continue {A} a.
Global Arguments Stop {A} o.

Definition Prog (A : Type) : Type := State → Step A * State.

Global Instance Prog_ret : MRet Prog := λ A a s, (Continue a, s).
Global Instance Prog_bind : MBind Prog := λ A B f m s,
  match m s with
  | (Continue a, s') => f a s'
  | (Stop o, s') => (Stop o, s')
  end.

Definition effect (f : State → State) : Prog unit := λ s, (Continue tt, f s).
Definition finish {A} (o : Outcome) : Prog A := λ s, (Stop o, s).
Definition process_exit {A} (code : Z) : Prog A := finish (Exit code).
Definition when (b : bool) (m : Prog unit) : Prog unit := if b then m else mret tt.

(** [await request] with nothing to catch a rejection. *)
Definition await {A} (r : Request) (answer : Promise A) : Prog A := λ s,
  match answer with
  | Resolved a => (Continue a, emit (Send r) s)
  | Rejected message => (Stop (Uncaught message), emit (Send r) s)
  end.

Section Main.
Context `{Externals}.
Variable proc : Process.
Variable world : World.

(** Line 377: [discussions.filter(discussion =>
    discussion.notes![0].body.includes(COVERITY_COMMENT_PREFACE))].
    [notes![0]] of a discussion without notes is [undefined], and reading
    its [body] throws. *)
Fixpoint review_filter (discussions : list ApiDiscussion) : Promise (list Discussion) :=
  match discussions with
  | [] => Resolved []
  | discussion :: discussions =>
      match api_notes discussion with
      | [] => Rejected "TypeError: Cannot read properties of undefined (reading 'body')"
      | note :: notes =>
          match review_filter discussions with
          | Rejected message => Rejected message
          | Resolved kept =>
              Resolved
                (if JS.includes (body note) COVERITY_COMMENT_PREFACE
                 then {| id := api_id discussion; root := note; replies := notes |} :: kept
                 else kept)
          end
      end
  end.

Definition coverity_url : option string :=
  if JS.truthy (opt_coverityUrl (options proc))
  then opt_coverityUrl (options proc) else getenv proc "COVERITY_URL".

Definition coverity_project_name : option string :=
  if JS.truthy (opt_coverityProject (options proc))
  then opt_coverityProject (options proc) else getenv proc "COVERITY_PROJECT".

Definition coverity_results_file : string :=
  match opt_json (options proc) with
  | None => "coverity-results.json"
  | Some json => if JS.truthy (Some json) then json else "coverity-results.json"
  end.

Definition is_merge_request : bool := JS.truthy (getenv proc "CI_MERGE_REQUEST_IID").

(** Line 356. *)
Definition canCheckCoverity : bool :=
  JS.truthy coverity_url && JS.truthy (getenv proc "COV_USER")
  && JS.truthy (getenv proc "COVERITY_PASSPHRASE") && JS.truthy coverity_project_name.

(** Lines 275-343: everything that is checked before GitLab is contacted.
    The banner and the parsing of the command line come before; what they
    leave behind is [options proc]. *)
Definition preflight : Prog unit :=
  effect (logger info "Starting Coverity GitLab Integration");;
  when (negb (JS.truthy coverity_url))
    (effect (logger error "Must specify Coverity URL in arguments or environment");;
     process_exit 1);;
  when (negb (JS.truthy coverity_project_name))
    (effect (logger error "Must specify Coverity Project in arguments or environment");;
     process_exit 1);;
  effect (logger info ("Using JSON file path: " +:+ coverity_results_file));;
  when (bool_decide (length (argv proc) = 0%nat)) (effect (emit OutputHelp));;
  when (opt_debug (options proc))
    (effect (emit (SetLogLevel debug));;
     effect (logger debug "Enabled debug mode"));;
  when (negb (JS.truthy (getenv proc "GITLAB_TOKEN"))
        || negb (JS.truthy (getenv proc "CI_SERVER_URL"))
        || negb (JS.truthy (getenv proc "CI_PROJECT_NAMESPACE"))
        || negb (JS.truthy (getenv proc "CI_PROJECT_NAME"))
        || negb (JS.truthy (getenv proc "CI_PROJECT_ID"))
        || negb (JS.truthy (getenv proc "CI_COMMIT_SHA")))
    (effect (logger error "Must specify GITLAB_TOKEN, CI_SERVER_URL, CI_PROJECT_NAMESPACE, CI_PROJECT_ID, CI_COMMIT_SHA and CI_PROJECT_NAME.");;
     process_exit 1);;
  (if negb is_merge_request then
     when (negb (JS.truthy (getenv proc "CI_COMMIT_BRANCH")))
       (effect (logger error "Must specify CI_COMMIT_BRANCH.");;
        process_exit 1)
   else
     when (negb (JS.truthy (getenv proc "CI_MERGE_REQUEST_DIFF_BASE_SHA")))
       (effect (logger error "Must specify CI_MERGE_REQUEST_DIFF_BASE_SHA when running from merge request.");;
        process_exit 1));;
  when (negb is_merge_request)
    (effect (logger info "Not a Pull Request. Nothing to do...");;
     finish Returned).

(** Lines 354-372: the lookup of the merge keys on the Coverity server. *)
Definition lookup_merge_keys (issues : list Issue)
    : Prog (gmap string CoverityProjectIssue) :=
  let mergeKeyToIssue : gmap string CoverityProjectIssue := ∅ in
  if negb canCheckCoverity then
    effect (logger warn "Missing Coverity Connect info. Issues will not be checked against the server.");;
    mret mergeKeyToIssue
  else
    let allMergeKeys := mergeKey <$> issues in
    let allUniqueMergeKeys : gset string := list_to_set allMergeKeys in
    if canCheckCoverity && bool_decide (0 < length issues)%nat then
      effect (emit (Send (coverityMapMatchingMergeKeys coverity_url
                (getenv proc "COV_USER") (getenv proc "COVERITY_PASSPHRASE")
                coverity_project_name allUniqueMergeKeys)));;
      match on_coverityMapMatchingMergeKeys world allUniqueMergeKeys with
      | Resolved found => mret found
      | Rejected message =>
          effect (logger error message);;
          process_exit 1
      end
    else mret mergeKeyToIssue.

(** Lines 345-378: everything that is fetched before the loop. *)
Definition fetch
    : Prog (list Issue * gmap string CoverityProjectIssue * DiffMap) :=
  effect (logger info ("Connecting to GitLab: " +:+ JS.template (getenv proc "CI_SERVER_URL")));;
  project ← await (gitlabGetProject (getenv proc "CI_SERVER_URL") (getenv proc "GITLAB_TOKEN")
                     (getenv proc "CI_PROJECT_ID"))
                  (on_gitlabGetProject world);
  effect (logger debug ("Project=" +:+ project));;
  issues ← await (readResults coverity_results_file)
                 (on_readResults world coverity_results_file);
  mergeKeyToIssue ← lookup_merge_keys issues;
  review_discussions ← await (gitlabGetDiscussions (gitlab proc))
    (match on_gitlabGetDiscussions world with
     | Resolved discussions => review_filter discussions
     | Rejected message => Rejected message
     end);
  effect (set_review_discussions review_discussions);;
  diff_map ← await (gitlabGetDiffMap (gitlab proc)) (on_gitlabGetDiffMap world);
  mret (issues, mergeKeyToIssue, diff_map).

(** Lines 380-475: the reconciliation, the summary and the exit code. *)
Definition reconcile_and_exit
    (fetched : list Issue * gmap string CoverityProjectIssue * DiffMap) : Prog unit :=
  let '(issues, mergeKeyToIssue, diff_map) := fetched in
  effect (reconcile proc world mergeKeyToIssue diff_map issues);;
  effect (logger info ("Found " +:+ pretty (length issues) +:+ " Coverity issues."));;
  if bool_decide (0 < length issues)%nat then process_exit 1 else process_exit 0.

Definition main_after_preflight : Prog unit := fetch ≫= reconcile_and_exit.

Definition main : Prog unit := preflight;; main_after_preflight.

(** A run of the program: how it ends and the state it ends in. *)
Definition run : Step unit * State := main initial_state.

End Main.

(** ** Statements about traces *)

Definition is_lookup (r : Request) : bool :=
  match r with
  | coverityMapMatchingMergeKeys _ _ _ _ _ => true
  | _ => false
  end.

Definition is_error_log (e : Event) : bool :=
  match e with
  | Log error _ => true
  | _ => false
  end.

Definition error_logs (t : list Event) : list Event :=
  filter (λ e, is_error_log e = true) t.

Definition without_error_logs (t : list Event) : list Event :=
  filter (λ e, is_error_log e = false) t.

(** What an update request names: the parsed discussion id and the id of
    the root note. *)
Definition update_target `{Externals} (d : Discussion) : option Z * Z :=
  (parseInt10 (id d), note_id (root d)).

Definition updates (target : option Z * Z) (r : Request) : bool :=
  match r with
  | gitlabUpdateNote _ discussion_id note _ =>
      bool_decide ((discussion_id, note) = target)
  | _ => false
  end.

Definition updates_of (target : option Z * Z) (t : list Event) : list Request :=
  filter (λ r, updates target r = true) (requests t).

(** The same world with other fates for the create and update requests. *)
Definition with_on_write `{Externals} (w : World)
    (fate : nat → Request → option string) : World :=
  {| on_gitlabGetProject := on_gitlabGetProject w;
     on_readResults := on_readResults w;
     on_coverityMapMatchingMergeKeys := on_coverityMapMatchingMergeKeys w;
     on_gitlabGetDiscussions := on_gitlabGetDiscussions w;
     on_gitlabGetDiffMap := on_gitlabGetDiffMap w;
     on_write := fate |}.

(** The same world with another answer of the Coverity server. *)
Definition with_lookup `{Externals} (w : World)
    (answer : gset string → Promise (gmap string CoverityProjectIssue)) : World :=
  {| on_gitlabGetProject := on_gitlabGetProject w;
     on_readResults := on_readResults w;
     on_coverityMapMatchingMergeKeys := answer;
     on_gitlabGetDiscussions := on_gitlabGetDiscussions w;
     on_gitlabGetDiffMap := on_gitlabGetDiffMap w;
     on_write := on_write w |}.

(** How many of the requests [rs], sent as the [n]-th, [n+1]-th, ... write
    of the run, are rejected. *)
Fixpoint rejected_writes `{Externals} (w : World) (n : nat) (rs : list Request) : nat :=
  match rs with
  | [] => 0
  | r :: rs =>
      (if on_write w n r is Some _ then 1 else 0) + rejected_writes w (S n) rs
  end.

(** The state in which the loop over the issues starts. *)
Definition start (pool : list Discussion) : State :=
  set_review_discussions pool initial_state.

(** [s'] is [s] with the events [evs] added to the trace, and [evs] holds
    one error log for each rejected write. *)
Definition extends `{Externals} (w : World) (s : State) (evs : list Event)
    (s' : State) : Prop :=
  trace s' = trace s ++ evs ∧
  length (error_logs evs)
  = rejected_writes w (length (write_requests (trace s))) (write_requests evs).

(** The same, for a step that leaves pool and ghost state alone. *)
Definition after `{Externals} (w : World) (s : State) (evs : list Event)
    (s' : State) : Prop :=
  review_discussions s' = review_discussions s ∧
  claimed s' = claimed s ∧
  extends w s evs s'.

(** Two states that differ in their error logs only. *)
Definition same_but_errors (s1 s2 : State) : Prop :=
  review_discussions s1 = review_discussions s2 ∧
  claimed s1 = claimed s2 ∧
  without_error_logs (trace s1) = without_error_logs (trace s2).

(** A part of the program that sends no request of the kind [P] and leaves
    the ghost state alone. *)
Definition quiet (P : Request → bool) {A} (m : Prog A) : Prop :=
  ∀ s, filter (λ r, P r = true) (requests (trace (m s).2))
       = filter (λ r, P r = true) (requests (trace s)) ∧
       claimed (m s).2 = claimed s.

(** The discussions spliced out so far, as a list. *)
Definition claimed_discussions (s : State) : list Discussion := snd <$> claimed s.

(** What [claim] adds to the ghost state. *)
Definition claim_of (issue : Issue) (d : option Discussion) : list (Issue * Discussion) :=
  from_option (λ d, [(issue, d)]) [] d.

(** Every update request sent so far names a discussion that has been
    spliced out of the pool. *)
Definition updates_claimed `{Externals} (s : State) : Prop :=
  ∀ r target, r ∈ requests (trace s) → updates target r = true →
    target ∈ update_target <$> claimed_discussions s.

(** ** A concrete outside world, for running the program on examples *)

Module Double.

Fixpoint leading_digits (s : string) (acc : option Z) : option Z :=
  match s with
  | EmptyString => acc
  | String c s' =>
      let n := Z.of_nat (Ascii.nat_of_ascii c) in
      if (48 <=? n) && (n <=? 57)
      then leading_digits s' (Some (10 * default 0 acc + (n - 48)))
      else acc
  end.

Definition preface : string := "<!-- Coverity -->".

Definition externals : Externals :=
  {| DiffMap := list (string * Z);
     parseInt10 := λ s, leading_digits s None;
     COVERITY_COMMENT_PREFACE := preface;
     coverityCreateReviewCommentMessage := λ issue,
       preface +:+ " review of " +:+ mergeKey issue;
     coverityCreateIssueCommentMessage := λ issue link,
       preface +:+ " issue " +:+ mergeKey issue +:+ " at " +:+ link;
     coverityIsInDiff := λ issue diff_map,
       bool_decide ((strippedMainEventFilePathname issue, mainEventLineNumber issue)
                      ∈ diff_map);
     coverityIsPresent := λ text, negb (JS.includes text "no longer present");
     coverityCreateNoLongerPresentMessage := λ text,
       text +:+ " (no longer present)";
     relatavize_path := λ _ path, path |}.

Definition proc : Process :=
  {| argv := ["--coverity-url"; "https://coverity.example"];
     options := {| opt_json := None;
                   opt_coverityUrl := Some "https://coverity.example";
                   opt_coverityProject := Some "demo";
                   opt_debug := false |};
     env := list_to_map
       [ ("GITLAB_TOKEN", "token"); ("CI_SERVER_URL", "https://gitlab.example");
         ("CI_MERGE_REQUEST_IID", "7"); ("CI_MERGE_REQUEST_DIFF_BASE_SHA", "base");
         ("CI_COMMIT_SHA", "head"); ("CI_PROJECT_NAMESPACE", "group");
         ("CI_PROJECT_NAME", "demo"); ("CI_PROJECT_ID", "42");
         ("CI_COMMIT_REF_NAME", "feature"); ("COV_USER", "user");
         ("COVERITY_PASSPHRASE", "secret") ];
     cwd := "/builds/group/demo" |}.

Definition K1 : Issue :=
  {| mergeKey := "K1"; strippedMainEventFilePathname := "a.c";
     mainEventLineNumber := 10; otherFields := "RESOURCE_LEAK" |}.

Definition K2 : Issue :=
  {| mergeKey := "K2"; strippedMainEventFilePathname := "b.c";
     mainEventLineNumber := 20; otherFields := "NULL_RETURNS" |}.

(** A world in which the server knows no merge key and nothing fails. *)
Definition world (issues : list Issue) (discussions : list ApiDiscussion)
    (diff_map : list (string * Z)) : @World externals :=
  @Build_World externals
    (* on_gitlabGetProject *) (Resolved "demo")
    (* on_readResults *) (λ _, Resolved issues)
    (* on_coverityMapMatchingMergeKeys *) (λ _, Resolved ∅)
    (* on_gitlabGetDiscussions *) (Resolved discussions)
    (* on_gitlabGetDiffMap *) (Resolved diff_map)
    (* on_write *) (λ _ _, None).

(** A discussion anchored at line 10 whose body mentions K1. *)
Definition positioned_K1 : Discussion :=
  {| id := "101";
     root := {| note_id := 1; body := preface +:+ " old review of K1";
                position := Some {| new_path := "a.c"; new_line := Some 10 |} |};
     replies := [] |}.

(** A discussion without position whose body mentions K1. *)
Definition unpositioned_K1 : Discussion :=
  {| id := "102";
     root := {| note_id := 2; body := preface +:+ " old comment on K1";
                position := None |};
     replies := [] |}.

(** The unpositioned discussion after an update by the program: its body is
    the review message of K1. *)
Definition updated_K1 : Discussion :=
  {| id := "102";
     root := {| note_id := 2;
                body := @coverityCreateReviewCommentMessage externals K1;
                position := None |};
     replies := [] |}.

Definition as_listed (d : Discussion) : ApiDiscussion :=
  {| api_id := id d; api_notes := root d :: replies d |}.

(** The discussion service, as far as updates go: the new body replaces the
    body of the root note of the discussion the request names. *)
Definition serve (r : Request) (discussions : list Discussion) : list Discussion :=
  match r with
  | gitlabUpdateNote _ discussion_id note new_body =>
      (λ d, if bool_decide (@update_target externals d = (discussion_id, note))
            then {| id := id d;
                    root := {| note_id := note_id (root d); body := new_body;
                               position := position (root d) |};
                    replies := replies d |}
            else d) <$> discussions
  | _ => discussions
  end.

End Double.

(** ** Statements about the program around the engine *)

(** A listed discussion as an entry of the pool: its first note is the root. *)
Definition listed (d : ApiDiscussion) : option Discussion :=
  match api_notes d with
  | [] => None
  | note :: notes => Some {| id := api_id d; root := note; replies := notes |}
  end.

(** The environment variables [main] insists on (lines 319-322). *)
Definition required_variables : list string :=
  [ "GITLAB_TOKEN"; "CI_SERVER_URL"; "CI_PROJECT_NAMESPACE"; "CI_PROJECT_NAME";
    "CI_PROJECT_ID"; "CI_COMMIT_SHA" ].

(** * The Black Duck program

    The first program of [src/index.ts] (the [detect-gitlab] entry point):
    it runs Synopsys Detect and, on a merge request, keeps one comment with
    the report of a rapid scan.  It is modelled like the Coverity program,
    from its first [logger] call on, with a trace of events and a record of
    the answers of the outside world. *)

Module Detect.

(** Line 24. *)
Definition COMMENT_PREFACE : string :=
  "<!-- Comment automatically managed by Detect Integration, do not remove this line -->".

(** ['\r\n'] *)
Definition CRLF : string :=
  String (Ascii.ascii_of_nat 13) (String (Ascii.ascii_of_nat 10) EmptyString).

(** [s.toLowerCase()] on the letters A-Z; other characters are kept.  This
    is all the comparison with ['true'] of lines 202-203 depends on. *)
Definition lower (c : Ascii.ascii) : Ascii.ascii :=
  let n := Ascii.nat_of_ascii c in
  if (65 <=? n)%nat && (n <=? 90)%nat then Ascii.ascii_of_nat (n + 32) else c.

Fixpoint toLowerCase (s : string) : string :=
  match s with
  | EmptyString => EmptyString
  | String c s' => String (lower c) (toLowerCase s')
  end.

(** [parseInt(_, 10)] and [path.resolve] of the runtime, and the two exit
    codes imported from [@jcroall/synopsys-sig-node]. *)
Class Externals := {
  parseInt10 : string → option Z;
  path_resolve : string → string → string;
  POLICY_SEVERITY : Z;
  SUCCESS : Z
}.

(** An element of the array in the scan's JSON file.  The program counts the
    elements and hands them on. *)
Record IRapidScanResults := { result_json : string }.

(** Options as [commander] parses them; [url] and [token] are required. *)
Record Options := {
  url : string;
  token : string;
  detectVersion : option string;
  scanMode : option string;
  failOnAll : bool;
  detectTrustCert : bool;
  debug_option : bool
}.

Record Process := {
  options : Options;
  env : gmap string string
}.

Inductive Request :=
| getBearerToken (blackduck_url api_token : string)
| checkIfEnabledBlackduckPoliciesExist (blackduck_url api_token bearer : string)
| findOrDownloadDetect (runnerTemp : string)
| runDetect (detectPath : string) (detectArgs : list string)
| jsonGlobber (pattern : string)
| readFileSync (path : string)
| createRapidScanReportString (blackduck_url api_token : string)
    (policyViolations : list IRapidScanResults) (failed : bool)
| gitlabGetDiscussions (mr : GitlabMR)
| gitlabUpdateNote (mr : GitlabMR) (discussion_id : option Z) (note : Z)
    (new_body : string)
| gitlabCreateDiscussionWithoutPosition (mr : GitlabMR) (new_body : string)
| diagnosticGlobber (patterns : list string)
| copyFile (src dest : string).

Inductive Event :=
| Log (level : Level) (message : string)
| Send (r : Request).

(** The answers of the outside world.  For the two writes and for the copy,
    [None] is success and [Some m] a failure with reason [m]. *)
Record World := {
  tmpdir : string;
  on_getBearerToken : Promise string;
  on_checkIfEnabledBlackduckPoliciesExist : string → Promise bool;
  on_findOrDownloadDetect : Promise (option string);
  on_runDetect : string → list string → Promise (option Z);
  on_jsonGlobber : Promise (list string);
  on_readFileSync : string → Promise (list IRapidScanResults);
  on_createRapidScanReportString : list IRapidScanResults → bool → Promise string;
  on_gitlabGetDiscussions : Promise (list ApiDiscussion);
  on_gitlabUpdateNote : option string;
  on_gitlabCreateDiscussionWithoutPosition : option string;
  on_diagnosticGlobber : Promise (list string);
  on_copyFile : option string
}.

(** The state of a run is its trace. *)
Definition Prog (A : Type) : Type := list Event → Step A * list Event.

Global Instance Prog_ret : MRet Prog := λ A a t, (Continue a, t).
Global Instance Prog_bind : MBind Prog := λ A B f m t,
  match m t with
  | (Continue a, t') => f a t'
  | (Stop o, t') => (Stop o, t')
  end.

Definition logger (l : Level) (message : string) : Prog unit :=
  λ t, (Continue tt, t ++ [Log l message]).
Definition send (r : Request) : Prog unit := λ t, (Continue tt, t ++ [Send r]).
Definition finish {A} (o : Outcome) : Prog A := λ t, (Stop o, t).
Definition process_exit {A} (code : Z) : Prog A := finish (Exit code).
Definition when (b : bool) (m : Prog unit) : Prog unit := if b then m else mret tt.

(** [await request] with nothing to catch a rejection. *)
Definition await {A} (r : Request) (answer : Promise A) : Prog A :=
  send r;;
  match answer with
  | Resolved a => mret a
  | Rejected message => finish (Uncaught message)
  end.

(** [await request.catch(reason => { logger.error(...); process.exit(1) })] *)
Definition await_or_exit {A} (r : Request) (answer : Promise A)
    (handler : string → string) : Prog A :=
  send r;;
  match answer with
  | Resolved a => mret a
  | Rejected reason => logger error (handler reason);; process_exit 1
  end.

Definition requests (t : list Event) : list Request :=
  omap (λ e, match e with Send r => Some r | Log _ _ => None end) t.

Section Program.
Context `{Externals}.
Variable proc : Process.
Variable world : World.

Definition getenv (name : string) : option string := env proc !! name.

Definition BLACKDUCK_URL : string := url (options proc).
Definition BLACKDUCK_API_TOKEN : string := token (options proc).

(** Line 49: [options.scanMode ? options.scanMode : "RAPID"]. *)
Definition SCAN_MODE : string :=
  if JS.truthy (scanMode (options proc))
  then default "RAPID" (scanMode (options proc)) else "RAPID".

Definition FAIL_ON_ALL : bool := failOnAll (options proc).
Definition DETECT_TRUST_CERT : bool := detectTrustCert (options proc).

Definition is_rapid : bool := String.eqb SCAN_MODE "RAPID".

Definition is_merge_request : bool := JS.truthy (getenv "CI_MERGE_REQUEST_IID").

Definition gitlab : GitlabMR :=
  {| gitlab_url := getenv "CI_SERVER_URL";
     gitlab_token := getenv "GITLAB_TOKEN";
     project_id := getenv "CI_PROJECT_ID";
     mr_iid := getenv "CI_MERGE_REQUEST_IID" ≫= parseInt10 |}.

Definition runnerTemp : string := tmpdir world.
Definition outputPath : string := path_resolve runnerTemp "blackduck".

(** Lines 45-85. *)
Definition preflight : Prog unit :=
  logger info "Starting Black Duck GitLab Integration";;
  when (negb (String.eqb SCAN_MODE "RAPID") && negb (String.eqb SCAN_MODE "INTELLIGENT"))
    (logger error "Scan mode must be RAPID or INTELLIGENT";;
     process_exit 1);;
  when (negb (JS.truthy (getenv "GITLAB_TOKEN"))
        || negb (JS.truthy (getenv "CI_SERVER_URL"))
        || negb (JS.truthy (getenv "CI_PROJECT_NAMESPACE"))
        || negb (JS.truthy (getenv "CI_PROJECT_NAME"))
        || negb (JS.truthy (getenv "CI_PROJECT_ID"))
        || negb (JS.truthy (getenv "CI_COMMIT_SHA")))
    (logger error "Must specify GITLAB_TOKEN, CI_SERVER_URL, CI_PROJECT_NAMESPACE, CI_PROJECT_ID, CI_COMMIT_SHA and CI_PROJECT_NAME.";;
     process_exit 1);;
  if negb is_merge_request then
    when (negb (JS.truthy (getenv "CI_COMMIT_BRANCH")))
      (logger error "Must specify CI_COMMIT_BRANCH.";;
       process_exit 1)
  else
    when (negb (JS.truthy (getenv "CI_MERGE_REQUEST_DIFF_BASE_SHA")))
      (logger error "Must specify CI_MERGE_REQUEST_DIFF_BASE_SHA when running from merge request.";;
       process_exit 1).

(** Lines 90-108: in a rapid scan, at least one policy must be enabled. *)
Definition policy_check : Prog unit :=
  logger info "Checking that you have at least one enabled policy...";;
  blackDuckBearerToken ←
    await (getBearerToken BLACKDUCK_URL BLACKDUCK_API_TOKEN) (on_getBearerToken world);
  send (checkIfEnabledBlackduckPoliciesExist BLACKDUCK_URL BLACKDUCK_API_TOKEN
          blackDuckBearerToken);;
  policiesExist ←
    match on_checkIfEnabledBlackduckPoliciesExist world blackDuckBearerToken with
    | Resolved answer => mret (Some answer)
    | Rejected reason =>
        logger error ("Could not verify whether policies existed: " +:+ reason);;
        mret None
    end;
  match policiesExist with
  | None =>
      logger error "Could not determine if policies existed. Eixting.";;
      process_exit 1
  | Some false =>
      logger error ("Could not run using " +:+ SCAN_MODE +:+ " scan mode. No enabled policies found on the specified Black Duck server.");;
      process_exit 1
  | Some true =>
      logger info ("You have at least one enabled policy, executing in " +:+ SCAN_MODE +:+ " scan mode...")
  end.

(** Lines 115-123. *)
Definition detectArgs : list string :=
  [ "--blackduck.url=" +:+ BLACKDUCK_URL;
    "--blackduck.api.token=" +:+ BLACKDUCK_API_TOKEN;
    "--detect.blackduck.scan.mode=" +:+ SCAN_MODE;
    "--detect.output.path=" +:+ outputPath;
    "--detect.scan.output.path=" +:+ outputPath ]
  ++ (if DETECT_TRUST_CERT then ["--blackduck.trust.cert=TRUE"] else []).

(** Lines 110-145: Detect is found or downloaded and run; the result is its
    exit code. *)
Definition detect : Prog Z :=
  detectPath ← await_or_exit (findOrDownloadDetect runnerTemp)
                  (on_findOrDownloadDetect world)
                  (λ reason, "Unable to download Detect: " +:+ reason);
  logger info ("Executing: " +:+ JS.template detectPath +:+ " "
                 +:+ String.concat "," detectArgs);;
  match detectPath with
  | None =>
      logger debug "Could not determine detect path. Canceling policy check.";;
      process_exit 1
  | Some detectPath =>
      detectExitCode ← await_or_exit (runDetect detectPath detectArgs)
                          (on_runDetect world detectPath detectArgs)
                          (λ reason, "Could not execute " +:+ detectPath +:+ ": " +:+ reason);
      match detectExitCode with
      | None =>
          logger error "Could not determine detect exit code. Canceling policy check.";;
          process_exit 1
      | Some detectExitCode =>
          when ((0 <? detectExitCode) && negb (detectExitCode =? POLICY_SEVERITY))
            (logger error ("Detect failed with exit code: " +:+ pretty detectExitCode
                             +:+ ". Check the logs for more information.");;
             process_exit 1);;
          logger info "Detect executed successfully.";;
          mret detectExitCode
      end
  end.

(** Line 173: the listed discussions whose first note holds the marker.
    Reading [notes![0].body] of a discussion without notes throws. *)
Fixpoint review_filter (discussions : list ApiDiscussion) : Promise (list Discussion) :=
  match discussions with
  | [] => Resolved []
  | discussion :: discussions =>
      match api_notes discussion with
      | [] => Rejected "TypeError: Cannot read properties of undefined (reading 'body')"
      | note :: notes =>
          match review_filter discussions with
          | Rejected message => Rejected message
          | Resolved kept =>
              Resolved
                (if JS.includes (body note) COMMENT_PREFACE
                 then {| id := api_id discussion; root := note; replies := notes |} :: kept
                 else kept)
          end
      end
  end.

(** Line 168. *)
Definition message (rapidScanReport : string) : string :=
  COMMENT_PREFACE +:+ CRLF +:+ rapidScanReport.

(** [await request] for one of the two writes. *)
Definition await_write (r : Request) (fate : option string) : Prog unit :=
  send r;;
  match fate with
  | None => mret tt
  | Some reason => finish (Uncaught reason)
  end.

(** Lines 166-186: on a merge request the report goes into a comment. *)
Definition comment (rapidScanReport : string) : Prog unit :=
  logger info "This is a merge request, commenting...";;
  review_discussions ← await (gitlabGetDiscussions gitlab)
    (match on_gitlabGetDiscussions world with
     | Resolved discussions => review_filter discussions
     | Rejected reason => Rejected reason
     end);
  match review_discussions with
  | first :: _ =>
      logger info ("Updating existing discussion #" +:+ id first +:+ " note #"
                     +:+ pretty (note_id (root first)));;
      await_write
        (gitlabUpdateNote gitlab (parseInt10 (id first)) (note_id (root first))
           (message rapidScanReport))
        (on_gitlabUpdateNote world)
  | [] =>
      logger info "Creating a new comment";;
      await_write
        (gitlabCreateDiscussionWithoutPosition gitlab (message rapidScanReport))
        (on_gitlabCreateDiscussionWithoutPosition world)
  end;;
  logger info "Successfully commented on PR.".

(** Lines 150-197: the report of a rapid scan; the result is
    [hasPolicyViolations]. *)
Definition report (detectExitCode : Z) : Prog bool :=
  logger info "Detect executed in RAPID mode. Beginning reporting...";;
  scanJsonPaths ← await (jsonGlobber (outputPath +:+ "/*.json")) (on_jsonGlobber world);
  policyViolations ←
    match scanJsonPaths with
    | [] => finish (Uncaught "TypeError [ERR_INVALID_ARG_TYPE]")
    | scanJsonPath :: _ =>
        await (readFileSync scanJsonPath) (on_readFileSync world scanJsonPath)
    end;
  let hasPolicyViolations := bool_decide (0 < length policyViolations)%nat in
  logger debug ("Policy Violations Present: "
                  +:+ (if hasPolicyViolations then "true" else "false"));;
  let failureConditionsMet := (detectExitCode =? POLICY_SEVERITY) || FAIL_ON_ALL in
  rapidScanReport ←
    await (createRapidScanReportString BLACKDUCK_URL BLACKDUCK_API_TOKEN
             policyViolations (hasPolicyViolations && failureConditionsMet))
          (on_createRapidScanReportString world policyViolations
             (hasPolicyViolations && failureConditionsMet));
  when is_merge_request (comment rapidScanReport);;
  (if hasPolicyViolations then
     if failureConditionsMet
     then logger info "Components found that violate your Black Duck Policies!"
     else logger info "No components violated your BLOCKER or CRITICAL Black Duck Policies!"
   else logger info "No components found that violate your Black Duck policies!");;
  logger info "Reporting complete.";;
  mret hasPolicyViolations.

(** Lines 202-203. *)
Definition diagnostic_flag (name : string) : bool :=
  match getenv name with
  | Some value => String.eqb (toLowerCase value) "true"
  | None => false
  end.

(** Lines 202-214.  [fs.copyFile] reports through a callback that runs after
    [main] is done; the result is the error it will be called with. *)
Definition diagnostics : Prog (option string) :=
  let diagnosticMode := diagnostic_flag "DETECT_DIAGNOSTIC" in
  let extendedDiagnosticMode := diagnostic_flag "DETECT_DIAGNOSTIC_EXTENDED" in
  if diagnosticMode || extendedDiagnosticMode then
    diagnosticZip ← await (diagnosticGlobber [outputPath +:+ "/runs/*.zip"])
                      (on_diagnosticGlobber world);
    match diagnosticZip with
    | [] => finish (Uncaught "TypeError [ERR_INVALID_ARG_TYPE]")
    | zip :: _ =>
        send (copyFile zip "detect-diagnostic-logs.zip");;
        mret (on_copyFile world)
    end
  else mret None.

(** Lines 216-222. *)
Definition summary (hasPolicyViolations : bool) (detectExitCode : Z) : Prog unit :=
  if hasPolicyViolations then logger warn "Found dependencies violating policy!"
  else if 0 <? detectExitCode
  then logger warn "Dependency check failed! See Detect output for more information."
  else if detectExitCode =? SUCCESS
  then logger info "None of your dependencies violate your Black Duck policies!"
  else mret tt.

(** The callback of [fs.copyFile] (lines 209-213). *)
Definition copy_callback (err : option string) : Prog unit :=
  match err with
  | Some err =>
      logger warn ("Unable to copy diagnostic logs to detect-diagnostic-logs.zip: " +:+ err)
  | None => mret tt
  end.

(** Lines 147-223: what follows a successful run of Detect. *)
Definition after_detect (detectExitCode : Z) : Prog unit :=
  hasPolicyViolations ←
    (if is_rapid then report detectExitCode
     else
       logger info ("Executed in " +:+ SCAN_MODE +:+ " mode. Skipping policy check.");;
       mret false);
  err ← diagnostics;
  summary hasPolicyViolations detectExitCode;;
  copy_callback err;;
  finish Returned.

Definition main : Prog unit :=
  preflight;;
  when is_rapid policy_check;;
  detect ≫= after_detect.

(** A run of the program: how it ends and its trace. *)
Definition run : Step unit * list Event := main [].

End Program.

(** The requests that go to GitLab, and those among them that write. *)
Definition is_gitlab (r : Request) : bool :=
  match r with
  | gitlabGetDiscussions _ | gitlabUpdateNote _ _ _ _
  | gitlabCreateDiscussionWithoutPosition _ _ => true
  | _ => false
  end.

Definition is_write (r : Request) : bool :=
  match r with
  | gitlabUpdateNote _ _ _ _ | gitlabCreateDiscussionWithoutPosition _ _ => true
  | _ => false
  end.

(** The requests that concern Detect itself or its diagnostic logs. *)
Definition is_local (r : Request) : bool :=
  match r with
  | findOrDownloadDetect _ | runDetect _ _ | diagnosticGlobber _ | copyFile _ _ => true
  | _ => false
  end.

(** A part of the program that sends no request of the kind [P]. *)
Definition quiet (P : Request → bool) {A} (m : Prog A) : Prop :=
  ∀ t, filter (λ r, P r = true) (requests (m t).2)
       = filter (λ r, P r = true) (requests t).

(** A part of the program that stops, if it stops, with an outcome in [Q]. *)
Definition stops_within (Q : Outcome → Prop) {A} (m : Prog A) : Prop :=
  ∀ t o, (m t).1 = Stop o → Q o.

(** Outcomes other than [process.exit]. *)
Definition no_exit (o : Outcome) : Prop :=
  match o with
  | Exit _ => False
  | _ => True
  end.

(** Outcomes other than [process.exit] with a code that is not 1. *)
Definition exit_1_only (o : Outcome) : Prop :=
  match o with
  | Exit code => code = 1
  | _ => True
  end.

(** The requests of lines 90-135: the policy check and Detect itself. *)
Definition is_before_report (r : Request) : bool :=
  match r with
  | getBearerToken _ _ | checkIfEnabledBlackduckPoliciesExist _ _ _
  | findOrDownloadDetect _ | runDetect _ _ => true
  | _ => false
  end.

(** A part of the program that adds at most [n] writes to the trace. *)
Definition writes_at_most (n : nat) {A} (m : Prog A) : Prop :=
  ∀ t, (length (filter (λ r, is_write r = true) (requests (m t).2))
        ≤ length (filter (λ r, is_write r = true) (requests t)) + n)%nat.

End Detect.

(** ** A concrete outside world for the Black Duck program *)

Module DetectDouble.

Definition externals : Detect.Externals :=
  {| Detect.parseInt10 := λ s, Double.leading_digits s None;
     Detect.path_resolve := λ dir name, dir +:+ "/" +:+ name;
     Detect.POLICY_SEVERITY := 3;
     Detect.SUCCESS := 0 |}.

Definition proc (mode : option string) : Detect.Process :=
  {| Detect.options :=
       {| Detect.url := "https://blackduck.example"; Detect.token := "api-token";
          Detect.detectVersion := None; Detect.scanMode := mode;
          Detect.failOnAll := false; Detect.detectTrustCert := false;
          Detect.debug_option := false |};
     Detect.env := list_to_map
       [ ("GITLAB_TOKEN", "token"); ("CI_SERVER_URL", "https://gitlab.example");
         ("CI_MERGE_REQUEST_IID", "7"); ("CI_MERGE_REQUEST_DIFF_BASE_SHA", "base");
         ("CI_COMMIT_SHA", "head"); ("CI_PROJECT_NAMESPACE", "group");
         ("CI_PROJECT_NAME", "demo"); ("CI_PROJECT_ID", "42") ] |}.

(** A world in which Detect ends with [code], the scan found [violations],
    the merge request has the [discussions] and nothing fails. *)
Definition world (code : Z) (violations : list Detect.IRapidScanResults)
    (discussions : list ApiDiscussion) : Detect.World :=
  {| Detect.tmpdir := "/tmp";
     Detect.on_getBearerToken := Resolved "bearer";
     Detect.on_checkIfEnabledBlackduckPoliciesExist := λ _, Resolved true;
     Detect.on_findOrDownloadDetect := Resolved (Some "/tmp/detect.sh");
     Detect.on_runDetect := λ _ _, Resolved (Some code);
     Detect.on_jsonGlobber := Resolved ["/tmp/blackduck/scan.json"];
     Detect.on_readFileSync := λ _, Resolved violations;
     Detect.on_createRapidScanReportString := λ _ _, Resolved "report";
     Detect.on_gitlabGetDiscussions := Resolved discussions;
     Detect.on_gitlabUpdateNote := None;
     Detect.on_gitlabCreateDiscussionWithoutPosition := None;
     Detect.on_diagnosticGlobber := Resolved [];
     Detect.on_copyFile := None |}.

Definition violation : Detect.IRapidScanResults :=
  {| Detect.result_json := "{}" |}.

(** A discussion holding an earlier report of the program, and one of
    somebody else. *)
Definition managed : ApiDiscussion :=
  {| api_id := "55";
     api_notes := [ {| note_id := 9; body := Detect.message "earlier report";
                       position := None |} ] |}.

Definition foreign : ApiDiscussion :=
  {| api_id := "54";
     api_notes := [ {| note_id := 8; body := "Looks good to me"; position := None |} ] |}.

End DetectDouble.

(** ** More concrete inputs *)

Module Cases.

(** The process of [Double] with some variables of the environment taken
    away. *)
Definition without (names : list string) : Process :=
  {| argv := argv Double.proc;
     options := options Double.proc;
     env := foldr delete (env Double.proc) names;
     cwd := cwd Double.proc |}.

(** A pipeline on a branch: no merge request, the branch is known. *)
Definition on_branch : Process :=
  {| argv := argv Double.proc;
     options := options Double.proc;
     env := <["CI_COMMIT_BRANCH" := "main"]> (delete "CI_MERGE_REQUEST_IID" (env Double.proc));
     cwd := cwd Double.proc |}.

(** A world in which the listing of the discussions fails. *)
Definition no_listing : @World Double.externals :=
  @Build_World Double.externals
    (Resolved "demo") (λ _, Resolved [Double.K1]) (λ _, Resolved ∅)
    (Rejected "503") (Resolved []) (λ _ _, None).

(** An issue whose merge key is a part of the merge key of K1. *)
Definition K : Issue :=
  {| mergeKey := "K"; strippedMainEventFilePathname := "c.c";
     mainEventLineNumber := 10; otherFields := "FORWARD_NULL" |}.

(** A positioned discussion that holds the review message of K1 already. *)
Definition reviewed_K1 : Discussion :=
  {| id := "103";
     root := {| note_id := 3;
                body := @coverityCreateReviewCommentMessage Double.externals Double.K1;
                position := Some {| new_path := "a.c"; new_line := Some 10 |} |};
     replies := [] |}.

(** A Black Duck server without an enabled policy. *)
Definition no_policy : Detect.World :=
  {| Detect.tmpdir := "/tmp";
     Detect.on_getBearerToken := Resolved "bearer";
     Detect.on_checkIfEnabledBlackduckPoliciesExist := λ _, Resolved false;
     Detect.on_findOrDownloadDetect := Resolved (Some "/tmp/detect.sh");
     Detect.on_runDetect := λ _ _, Resolved (Some 0);
     Detect.on_jsonGlobber := Resolved [];
     Detect.on_readFileSync := λ _, Resolved [];
     Detect.on_createRapidScanReportString := λ _ _, Resolved "report";
     Detect.on_gitlabGetDiscussions := Resolved [];
     Detect.on_gitlabUpdateNote := None;
     Detect.on_gitlabCreateDiscussionWithoutPosition := None;
     Detect.on_diagnosticGlobber := Resolved [];
     Detect.on_copyFile := None |}.

End Cases.

(** * Properties *)

(** ** Arrays: [findIndex] followed by [splice] removes the first match *)

Section ArrayFacts.
Context {A : Type} (p : A → bool).

Lemma findIndex_from_none (l : list A) (i : Z) :
  Forall (λ y, p y = false) l → findIndex_from p l i = -1.
Proof.
  intros Hl. revert i. induction Hl as [|y l Hy _ IH]; intros i; simpl; [done|].
  rewrite Hy. apply IH.
Qed.

Lemma findIndex_from_found (l1 l2 : list A) (x : A) (i : Z) :
  Forall (λ y, p y = false) l1 → p x = true →
  findIndex_from p (l1 ++ x :: l2) i = i + Z.of_nat (length l1).
Proof.
  intros Hl Hx. revert i. induction Hl as [|y l Hy _ IH]; intros i; simpl.
  - rewrite Hx. lia.
  - rewrite Hy, IH. lia.
Qed.

(** Either nothing satisfies [p], or the list splits at the first element
    that does. *)
Lemma first_match (l : list A) :
  Forall (λ y, p y = false) l ∨
  ∃ l1 x l2, l = l1 ++ x :: l2 ∧ Forall (λ y, p y = false) l1 ∧ p x = true.
Proof.
  induction l as [|y l IH]; [by left|].
  destruct (p y) eqn:Hy.
  - right. exists [], y, l. by repeat split.
  - destruct IH as [IH|(l1 & x & l2 & -> & Hl1 & Hx)].
    + left. by constructor.
    + right. exists (y :: l1), x, l2. repeat split; [|done]. by constructor.
Qed.

Lemma splice1_at (l1 l2 : list A) (x : A) :
  splice1 (l1 ++ x :: l2) (Z.of_nat (length l1)) = ([x], l1 ++ l2).
Proof.
  unfold splice1.
  assert ((Z.of_nat (length l1) <? 0) = false) as -> by (apply Z.ltb_ge; lia).
  rewrite length_app; simpl.
  replace (Z.to_nat (Z.min _ _)) with (length l1) by lia.
  rewrite drop_app_length, take_app_length; simpl. rewrite take_0.
  f_equal. f_equal.
  replace (l1 ++ x :: l2) with ((l1 ++ [x]) ++ l2) by (by rewrite <-app_assoc).
  replace (S (length l1)) with (length (l1 ++ [x]))
    by (rewrite length_app; simpl; lia).
  by rewrite drop_app_length.
Qed.

Lemma extract_none (l : list A) :
  Forall (λ y, p y = false) l → extract p l = (None, l).
Proof.
  intros Hl. unfold extract, findIndex. by rewrite findIndex_from_none.
Qed.

Lemma extract_first (l1 l2 : list A) (x : A) :
  Forall (λ y, p y = false) l1 → p x = true →
  extract p (l1 ++ x :: l2) = (Some x, l1 ++ l2).
Proof.
  intros Hl Hx. unfold extract, findIndex.
  rewrite findIndex_from_found, Z.add_0_l by done.
  assert ((Z.of_nat (length l1) =? -1) = false) as -> by (apply Z.eqb_neq; lia).
  cbn [negb]. by rewrite splice1_at.
Qed.

(** What [extract] returns, in all cases. *)
Lemma extract_spec (l : list A) :
  (Forall (λ y, p y = false) l ∧ extract p l = (None, l)) ∨
  (∃ l1 x l2, l = l1 ++ x :: l2 ∧ Forall (λ y, p y = false) l1 ∧ p x = true ∧
              extract p l = (Some x, l1 ++ l2)).
Proof.
  destruct (first_match l) as [Hl|(l1 & x & l2 & -> & Hl1 & Hx)].
  - left. split; [done|]. by apply extract_none.
  - right. exists l1, x, l2. repeat split; try done. by apply extract_first.
Qed.

(** The extracted element and the rest make up the list. *)
Lemma extract_perm (l rest : list A) (found : option A) :
  extract p l = (found, rest) →
  from_option (λ x, [x]) [] found ++ rest ≡ₚ l.
Proof.
  destruct (extract_spec l) as [[_ ->]|(l1 & x & l2 & -> & _ & _ & ->)];
    intros [= <- <-]; simpl; [done|].
  by rewrite Permutation_middle.
Qed.

Lemma extract_found_holds (l rest : list A) (x : A) :
  extract p l = (Some x, rest) → p x = true.
Proof.
  destruct (extract_spec l) as [[_ ->]|(l1 & y & l2 & -> & _ & Hy & ->)];
    intros [= <- <-]; done.
Qed.

Lemma extract_some_inv (l rest : list A) (x : A) :
  extract p l = (Some x, rest) →
  ∃ l1 l2, l = l1 ++ x :: l2 ∧ Forall (λ y, p y = false) l1 ∧ p x = true ∧
           rest = l1 ++ l2.
Proof.
  destruct (extract_spec l) as [[_ ->]|(l1 & y & l2 & -> & Hl1 & Hy & ->)];
    intros [= <- <-]. by exists l1, l2.
Qed.

Lemma extract_none_inv (l rest : list A) :
  extract p l = (None, rest) → rest = l ∧ Forall (λ y, p y = false) l.
Proof.
  destruct (extract_spec l) as [[Hl ->]|(l1 & y & l2 & -> & _ & Hy & ->)];
    intros [= <-]; done.
Qed.

End ArrayFacts.

(** ** Traces *)

Lemma filter_none {A} (P : A → Prop) `{∀ x, Decision (P x)} (l : list A) :
  (∀ x, x ∈ l → ¬ P x) → filter P l = [].
Proof.
  intros Hl. destruct (filter P l) as [|x l'] eqn:Hf; [done|].
  assert (x ∈ filter P l) as [Hx Hin]%list_elem_of_filter by (rewrite Hf; left).
  by destruct (Hl x Hin).
Qed.

Lemma requests_app (t1 t2 : list Event) :
  requests (t1 ++ t2) = requests t1 ++ requests t2.
Proof. unfold requests. apply omap_app. Qed.

Lemma write_requests_app (t1 t2 : list Event) :
  write_requests (t1 ++ t2) = write_requests t1 ++ write_requests t2.
Proof. unfold write_requests. by rewrite requests_app, filter_app. Qed.

Lemma updates_of_app (target : option Z * Z) (t1 t2 : list Event) :
  updates_of target (t1 ++ t2) = updates_of target t1 ++ updates_of target t2.
Proof. unfold updates_of. by rewrite requests_app, filter_app. Qed.

Lemma error_logs_app (t1 t2 : list Event) :
  error_logs (t1 ++ t2) = error_logs t1 ++ error_logs t2.
Proof. apply filter_app. Qed.

Lemma without_error_logs_app (t1 t2 : list Event) :
  without_error_logs (t1 ++ t2) = without_error_logs t1 ++ without_error_logs t2.
Proof. apply filter_app. Qed.

Lemma rejected_writes_app `{Externals} (w : World) (n : nat) (rs1 rs2 : list Request) :
  rejected_writes w n (rs1 ++ rs2)
  = (rejected_writes w n rs1 + rejected_writes w (n + length rs1) rs2)%nat.
Proof.
  revert n. induction rs1 as [|r rs1 IH]; intros n; simpl.
  - by rewrite Nat.add_0_r.
  - rewrite IH. replace (S n + length rs1)%nat with (n + S (length rs1))%nat by lia. lia.
Qed.

(** ** One step of the engine *)

Section EngineFacts.
Context `{Externals}.
Variable proc : Process.
Variable world : World.

Lemma extends_refl (s : State) : extends world s [] s.
Proof. unfold extends. by rewrite app_nil_r. Qed.

Lemma extends_trans (s1 s2 s3 : State) (evs1 evs2 : list Event) :
  extends world s1 evs1 s2 → extends world s2 evs2 s3 →
  extends world s1 (evs1 ++ evs2) s3.
Proof.
  intros [Ht1 He1] [Ht2 He2]. unfold extends.
  rewrite Ht2, Ht1, app_assoc. split; [done|].
  rewrite error_logs_app, length_app, He1, He2, Ht1.
  by rewrite !write_requests_app, rejected_writes_app, length_app.
Qed.

Lemma after_refl (s : State) : after world s [] s.
Proof. split; [done|]. split; [done|]. apply extends_refl. Qed.

Lemma after_trans (s1 s2 s3 : State) (evs1 evs2 : list Event) :
  after world s1 evs1 s2 → after world s2 evs2 s3 →
  after world s1 (evs1 ++ evs2) s3.
Proof.
  intros (Hp1 & Hc1 & He1) (Hp2 & Hc2 & He2).
  split; [congruence|]. split; [congruence|]. by eapply extends_trans.
Qed.

Lemma after_info (message : string) (s : State) :
  after world s [Log info message] (logger info message s).
Proof. by repeat split. Qed.

Lemma after_await_catch (r : Request) (handler : string → string) (s : State) :
  is_write r = true →
  after world s
    (Send r :: from_option (λ m, [Log error (handler m)]) []
                 (on_write world (length (write_requests (trace s))) r))
    (await_catch world r handler s).
Proof.
  intros Hr. unfold after, extends, await_catch.
  assert (∀ t, write_requests (Send r :: t) = r :: write_requests t) as Hw.
  { intros t. unfold write_requests. simpl. by rewrite filter_cons, decide_True. }
  rewrite Hw. cbn [rejected_writes].
  destruct (on_write world _ r) as [m|]; simpl.
  - rewrite <-app_assoc. by repeat split.
  - by repeat split.
Qed.

Lemma act_requests_are_writes (ignored new : bool) (diff_map : DiffMap)
    (issue : Issue) (ed ec : option Discussion) :
  Forall (λ r, is_write r = true) (act_requests proc ignored new diff_map issue ed ec).
Proof. unfold act_requests. repeat case_match; repeat constructor. Qed.

(** [act] touches neither the pool nor the ghost state, and sends exactly
    [act_requests]. *)
Lemma after_act (ignored new : bool) (diff_map : DiffMap) (issue : Issue)
    (ed ec : option Discussion) (s : State) :
  ∃ evs, after world s evs (act proc world ignored new diff_map issue ed ec s) ∧
         requests evs = act_requests proc ignored new diff_map issue ed ec.
Proof.
  unfold act, act_requests.
  repeat case_match; simplify_eq/=;
    try (eexists; split;
         [eapply after_trans; [apply after_info|by apply after_await_catch]|];
         simpl; by destruct (on_write world _ _));
    try (eexists; split; [apply after_info|done]).
Qed.

End EngineFacts.

(** ** The loops *)

Section LoopFacts.
Context `{Externals}.
Variable proc : Process.
Variable world : World.
Variable mergeKeyToIssue : gmap string CoverityProjectIssue.
Variable diff_map : DiffMap.

(** One iteration of the loop over the issues: two extractions from the
    pool, both recorded in the ghost state, then the requests of [act]. *)
Lemma process_issue_spec (issue : Issue) (s : State) :
  let s' := process_issue proc world mergeKeyToIssue diff_map issue s in
  ∃ ed ec pool1 pool2 evs,
    extract (positioned_match issue) (review_discussions s) = (ed, pool1) ∧
    extract (comment_match issue) pool1 = (ec, pool2) ∧
    review_discussions s' = pool2 ∧
    claimed s' = claimed s ++ claim_of issue ed ++ claim_of issue ec ∧
    extends world s evs s' ∧
    requests evs =
      act_requests proc (ignoredOnServer mergeKeyToIssue issue)
        (newOnServer mergeKeyToIssue issue) diff_map issue ed ec.
Proof.
  unfold process_issue, ignoredOnServer, newOnServer.
  destruct (classify (mergeKeyToIssue !! mergeKey issue)) as [ignored new] eqn:Hc.
  set (s1 := match mergeKeyToIssue !! mergeKey issue with
             | Some _ => _ | None => _ end).
  assert (∃ logs, after world s logs s1 ∧ requests logs = []) as (logs & Hlogs & Hreq).
  { subst s1. destruct (mergeKeyToIssue !! mergeKey issue).
    - eexists. split; [eapply after_trans; apply after_info|done].
    - eexists. split; [apply after_info|done]. }
  destruct Hlogs as (Hp1 & Hc1 & He1).
  rewrite Hp1.
  destruct (extract (positioned_match issue) (review_discussions s))
    as [ed pool1] eqn:Hed.
  cbn [review_discussions claim set_review_discussions].
  destruct (extract (comment_match issue) pool1) as [ec pool2] eqn:Hec.
  match goal with |- context [act _ _ _ _ _ _ _ _ ?s0] => set (s2 := s0) end.
  destruct (after_act proc world ignored new diff_map issue ed ec s2)
    as (evs & (Hp2 & Hc2 & He2) & Hreq2).
  exists ed, ec, pool1, pool2, (logs ++ evs). cbn [fst snd].
  rewrite Hp2, Hc2. subst s2.
  cbn [review_discussions claimed claim set_review_discussions].
  rewrite Hc1, requests_app, Hreq, !app_assoc. fold (claim_of issue ed).
  fold (claim_of issue ec). do 4 (split; [done|]). split; [|done].
  eapply extends_trans; [exact He1|exact He2].
Qed.

(** No discussion is lost or duplicated: what has been spliced out and what
    is left always make up the same collection. *)
Lemma process_issue_perm (issue : Issue) (s : State) :
  let s' := process_issue proc world mergeKeyToIssue diff_map issue s in
  claimed_discussions s' ++ review_discussions s'
  ≡ₚ claimed_discussions s ++ review_discussions s.
Proof.
  destruct (process_issue_spec issue s)
    as (ed & ec & pool1 & pool2 & evs & Hed & Hec & Hp & Hc & _).
  cbn zeta. unfold claimed_discussions. rewrite Hp, Hc, !fmap_app, <-!app_assoc.
  apply Permutation_app_head.
  rewrite <-(extract_perm _ _ _ _ Hed), <-(extract_perm _ _ _ _ Hec).
  apply Permutation_app; [by destruct ed|].
  apply Permutation_app; [by destruct ec|done].
Qed.

Lemma process_issues_perm (issues : list Issue) (s : State) :
  let s' := process_issues proc world mergeKeyToIssue diff_map issues s in
  claimed_discussions s' ++ review_discussions s'
  ≡ₚ claimed_discussions s ++ review_discussions s.
Proof.
  revert s. induction issues as [|issue issues IH]; intros s; [done|].
  cbn zeta in *. unfold process_issues in *. simpl.
  rewrite IH. apply process_issue_perm.
Qed.

Lemma process_issues_extends (issues : list Issue) (s : State) :
  ∃ evs, extends world s evs
           (process_issues proc world mergeKeyToIssue diff_map issues s).
Proof.
  revert s. induction issues as [|issue issues IH]; intros s.
  - exists []. apply extends_refl.
  - destruct (process_issue_spec issue s) as (? & ? & ? & ? & evs1 & _ & _ & _ & _ & He1 & _).
    destruct (IH (process_issue proc world mergeKeyToIssue diff_map issue s))
      as (evs2 & He2).
    exists (evs1 ++ evs2). by eapply extends_trans.
Qed.

(** The sweep changes neither the pool nor the ghost state. *)
Lemma sweep_discussion_after (discussion : Discussion) (s : State) :
  ∃ evs, after world s evs (sweep_discussion proc world discussion s) ∧
    requests evs =
      if coverityIsPresent (body (root discussion))
      then [update_request proc discussion
              (coverityCreateNoLongerPresentMessage (body (root discussion)))]
      else [].
Proof.
  unfold sweep_discussion. destruct (coverityIsPresent _).
  - eexists. split;
      [eapply after_trans; [apply after_info|by apply after_await_catch]|].
    simpl. by destruct (on_write world _ _).
  - exists []. split; [apply after_refl|done].
Qed.

Lemma sweep_after (s : State) :
  ∃ evs, after world s evs (sweep proc world s) ∧
    requests evs =
      (λ d, update_request proc d (coverityCreateNoLongerPresentMessage (body (root d))))
        <$> filter (λ d, coverityIsPresent (body (root d)) = true) (review_discussions s).
Proof.
  unfold sweep. generalize (review_discussions s) as pool. intros pool.
  revert s. induction pool as [|d pool IH]; intros s; simpl.
  - exists []. split; [apply after_refl|done].
  - destruct (sweep_discussion_after d s) as (evs1 & Hafter1 & Hreq1).
    destruct (IH (sweep_discussion proc world d s)) as (evs2 & Hafter2 & Hreq2).
    exists (evs1 ++ evs2). split; [by eapply after_trans|].
    rewrite requests_app, Hreq1, Hreq2, filter_cons.
    destruct (coverityIsPresent (body (root d))); by case_decide.
Qed.

Lemma reconcile_extends (issues : list Issue) (s : State) :
  ∃ evs, extends world s evs
           (reconcile proc world mergeKeyToIssue diff_map issues s).
Proof.
  unfold reconcile.
  destruct (process_issues_extends issues s) as (evs1 & He1).
  destruct (sweep_after (process_issues proc world mergeKeyToIssue diff_map issues s))
    as (evs2 & (_ & _ & He2) & _).
  exists (evs1 ++ evs2). by eapply extends_trans.
Qed.

End LoopFacts.

(** ** The whole reconciliation *)

Section ReconcileFacts.
Context `{Externals}.
Variable proc : Process.
Variable world : World.
Variable mergeKeyToIssue : gmap string CoverityProjectIssue.
Variable diff_map : DiffMap.

Lemma reconcile_perm (issues : list Issue) (pool : list Discussion) :
  let s' := reconcile proc world mergeKeyToIssue diff_map issues (start pool) in
  claimed_discussions s' ++ review_discussions s' ≡ₚ pool.
Proof.
  cbn zeta. unfold reconcile.
  destruct (sweep_after proc world
              (process_issues proc world mergeKeyToIssue diff_map issues (start pool)))
    as (evs & (Hp & Hc & _) & _).
  unfold claimed_discussions. rewrite Hp, Hc.
  apply (process_issues_perm proc world mergeKeyToIssue diff_map issues (start pool)).
Qed.

Lemma act_requests_claimed (ignored new : bool) (issue : Issue)
    (ed ec : option Discussion) (r : Request) (target : option Z * Z) :
  r ∈ act_requests proc ignored new diff_map issue ed ec →
  updates target r = true →
  target ∈ update_target <$> (snd <$> (claim_of issue ed ++ claim_of issue ec)).
Proof.
  unfold act_requests. intros Hr Hu.
  repeat case_match; simplify_eq/=;
    repeat match goal with
    | Hr : _ ∈ [] |- _ => by apply elem_of_nil in Hr
    | Hr : _ ∈ [_] |- _ => apply list_elem_of_singleton in Hr; subst r
    end; simpl in Hu; try done;
    apply bool_decide_eq_true in Hu; subst target; set_solver.
Qed.

Lemma process_issue_updates_claimed (issue : Issue) (s : State) :
  updates_claimed s →
  updates_claimed (process_issue proc world mergeKeyToIssue diff_map issue s).
Proof.
  intros Hs r target.
  destruct (process_issue_spec proc world mergeKeyToIssue diff_map issue s)
    as (ed & ec & pool1 & pool2 & evs & _ & _ & _ & Hc & [Ht _] & Hreq).
  unfold claimed_discussions. rewrite Ht, Hc, requests_app, Hreq, !fmap_app.
  intros [Hr|Hr]%elem_of_app Hu.
  - apply elem_of_app. left. by eapply Hs.
  - apply elem_of_app. right. rewrite <-!fmap_app.
    by eapply act_requests_claimed.
Qed.

Lemma process_issues_updates_claimed (issues : list Issue) (s : State) :
  updates_claimed s →
  updates_claimed (process_issues proc world mergeKeyToIssue diff_map issues s).
Proof.
  revert s. induction issues as [|issue issues IH]; intros s Hs; [done|].
  unfold process_issues in *. simpl. by apply IH, process_issue_updates_claimed.
Qed.

(** No request of a sweep names a discussion whose target is not in the
    pool. *)
Lemma sweep_requests_other (pool : list Discussion) (d : Discussion) :
  update_target d ∉ update_target <$> pool →
  filter (λ r, updates (update_target d) r = true)
    ((λ d, update_request proc d (coverityCreateNoLongerPresentMessage (body (root d))))
       <$> filter (λ d, coverityIsPresent (body (root d)) = true) pool) = [].
Proof.
  intros Hl. induction pool as [|e pool IH]; [done|].
  rewrite fmap_cons, not_elem_of_cons in Hl. destruct Hl as [Hne Hl].
  rewrite filter_cons. case_decide; [|by apply IH].
  rewrite fmap_cons, filter_cons. rewrite decide_False; [by apply IH|].
  simpl. rewrite bool_decide_eq_true. unfold update_target in *. congruence.
Qed.

(** Among the requests of a sweep over a pool whose discussions have
    different targets, exactly one names a given discussion of the pool
    that passes the presence check, and none names one that fails it. *)
Lemma sweep_requests_of (pool : list Discussion) (d : Discussion) :
  NoDup (update_target <$> pool) → d ∈ pool →
  filter (λ r, updates (update_target d) r = true)
    ((λ d, update_request proc d (coverityCreateNoLongerPresentMessage (body (root d))))
       <$> filter (λ d, coverityIsPresent (body (root d)) = true) pool)
  = if coverityIsPresent (body (root d))
    then [update_request proc d (coverityCreateNoLongerPresentMessage (body (root d)))]
    else [].
Proof.
  induction pool as [|e pool IH]; intros Hnd Hd; [by apply elem_of_nil in Hd|].
  rewrite fmap_cons in Hnd. apply NoDup_cons in Hnd as [He Hnd].
  apply elem_of_cons in Hd as [->|Hd].
  - rewrite filter_cons. destruct (coverityIsPresent (body (root e))) eqn:Hpresent.
    + rewrite decide_True by done. rewrite fmap_cons, filter_cons.
      rewrite decide_True by (simpl; by rewrite bool_decide_eq_true).
      by rewrite sweep_requests_other.
    + rewrite decide_False by done. by rewrite sweep_requests_other.
  - assert (update_target d ≠ update_target e) as Hne.
    { intros Heq. apply He. rewrite <-Heq. by apply list_elem_of_fmap_2. }
    rewrite filter_cons. case_decide; [|by apply IH].
    rewrite fmap_cons, filter_cons. rewrite decide_False; [by apply IH|].
    simpl. rewrite bool_decide_eq_true. unfold update_target in *. congruence.
Qed.

End ReconcileFacts.

(** ** The same run with other fates for its writes *)

Section Simulation.
Context `{Externals}.
Variable proc : Process.
Variables world1 world2 : World.

Lemma same_but_errors_refl (s : State) : same_but_errors s s.
Proof. by repeat split. Qed.

Lemma sim_emit (e : Event) (s1 s2 : State) :
  same_but_errors s1 s2 → same_but_errors (emit e s1) (emit e s2).
Proof.
  intros (Hp & Hc & Ht). repeat split; simpl; [done..|].
  by rewrite !without_error_logs_app, Ht.
Qed.

Lemma sim_error_left (message : string) (s1 s2 : State) :
  same_but_errors s1 s2 → same_but_errors (logger error message s1) s2.
Proof.
  intros (Hp & Hc & Ht). repeat split; simpl; [done..|].
  rewrite without_error_logs_app, Ht. simpl. by rewrite app_nil_r.
Qed.

Lemma sim_error_right (message : string) (s1 s2 : State) :
  same_but_errors s1 s2 → same_but_errors s1 (logger error message s2).
Proof.
  intros (Hp & Hc & Ht). repeat split; simpl; [done..|].
  rewrite without_error_logs_app, Ht. simpl. by rewrite app_nil_r.
Qed.

Lemma sim_set_review_discussions (pool : list Discussion) (s1 s2 : State) :
  same_but_errors s1 s2 →
  same_but_errors (set_review_discussions pool s1) (set_review_discussions pool s2).
Proof. intros (Hp & Hc & Ht). by repeat split. Qed.

Lemma sim_claim (issue : Issue) (d : option Discussion) (s1 s2 : State) :
  same_but_errors s1 s2 → same_but_errors (claim issue d s1) (claim issue d s2).
Proof. intros (Hp & Hc & Ht). repeat split; simpl; [done| |done]. by rewrite Hc. Qed.

(** A rejected write leaves an error log and nothing else. *)
Lemma sim_await_catch (r : Request) (handler : string → string) (s1 s2 : State) :
  same_but_errors s1 s2 →
  same_but_errors (await_catch world1 r handler s1) (await_catch world2 r handler s2).
Proof.
  intros HR. unfold await_catch.
  destruct (on_write world1 _ r), (on_write world2 _ r);
    repeat first [apply sim_error_left | apply sim_error_right];
    by apply sim_emit.
Qed.

Lemma sim_act (ignored new : bool) (diff_map : DiffMap) (issue : Issue)
    (ed ec : option Discussion) (s1 s2 : State) :
  same_but_errors s1 s2 →
  same_but_errors (act proc world1 ignored new diff_map issue ed ec s1)
                  (act proc world2 ignored new diff_map issue ed ec s2).
Proof.
  intros HR. unfold act.
  repeat case_match;
    repeat first [apply sim_await_catch | apply sim_emit]; done.
Qed.

Lemma sim_process_issue (mergeKeyToIssue : gmap string CoverityProjectIssue)
    (diff_map : DiffMap) (issue : Issue) (s1 s2 : State) :
  same_but_errors s1 s2 →
  same_but_errors (process_issue proc world1 mergeKeyToIssue diff_map issue s1)
                  (process_issue proc world2 mergeKeyToIssue diff_map issue s2).
Proof.
  intros HR. unfold process_issue.
  destruct (classify (mergeKeyToIssue !! mergeKey issue)) as [ignored new].
  match goal with
  | |- same_but_errors (let '(_, _) := extract _ (review_discussions ?a) in _)
                       (let '(_, _) := extract _ (review_discussions ?b) in _) =>
      assert (same_but_errors a b) as HR1
        by (destruct (mergeKeyToIssue !! mergeKey issue);
            repeat apply sim_emit; done);
      generalize dependent a; generalize dependent b
  end.
  intros b a [Hp HR1]. rewrite Hp.
  destruct (extract (positioned_match issue) (review_discussions b)) as [ed pool1].
  cbn [review_discussions claim set_review_discussions].
  destruct (extract (comment_match issue) pool1) as [ec pool2].
  apply sim_act. apply sim_claim, sim_set_review_discussions.
  apply sim_claim, sim_set_review_discussions. by split.
Qed.

Lemma sim_process_issues (mergeKeyToIssue : gmap string CoverityProjectIssue)
    (diff_map : DiffMap) (issues : list Issue) (s1 s2 : State) :
  same_but_errors s1 s2 →
  same_but_errors (process_issues proc world1 mergeKeyToIssue diff_map issues s1)
                  (process_issues proc world2 mergeKeyToIssue diff_map issues s2).
Proof.
  revert s1 s2. induction issues as [|issue issues IH]; intros s1 s2 HR; [done|].
  unfold process_issues in *. simpl. by apply IH, sim_process_issue.
Qed.

Lemma sim_sweep_discussion (d : Discussion) (s1 s2 : State) :
  same_but_errors s1 s2 →
  same_but_errors (sweep_discussion proc world1 d s1)
                  (sweep_discussion proc world2 d s2).
Proof.
  intros HR. unfold sweep_discussion. case_match; [|done].
  by apply sim_await_catch, sim_emit.
Qed.

Lemma sim_sweep (s1 s2 : State) :
  same_but_errors s1 s2 →
  same_but_errors (sweep proc world1 s1) (sweep proc world2 s2).
Proof.
  intros HR. unfold sweep. destruct HR as [Hp HR]. rewrite Hp.
  assert (same_but_errors s1 s2) as HR' by by split.
  clear Hp HR. generalize (review_discussions s2). intros pool.
  revert s1 s2 HR'. induction pool as [|d pool IH]; intros s1 s2 HR; [done|].
  simpl. by apply IH, sim_sweep_discussion.
Qed.

Lemma sim_reconcile (mergeKeyToIssue : gmap string CoverityProjectIssue)
    (diff_map : DiffMap) (issues : list Issue) (s1 s2 : State) :
  same_but_errors s1 s2 →
  same_but_errors (reconcile proc world1 mergeKeyToIssue diff_map issues s1)
                  (reconcile proc world2 mergeKeyToIssue diff_map issues s2).
Proof. intros HR. unfold reconcile. by apply sim_sweep, sim_process_issues. Qed.

End Simulation.

(** ** The program around the engine *)

Section ProgFacts.
Variable P : Request → bool.

Lemma quiet_ret {A} (a : A) : quiet P (mret a).
Proof. by intros s. Qed.

Lemma quiet_bind {A B} (m : Prog A) (f : A → Prog B) :
  quiet P m → (∀ a, quiet P (f a)) → quiet P (m ≫= f).
Proof.
  intros Hm Hf s. unfold mbind, Prog_bind.
  specialize (Hm s). destruct (m s) as [[a|o] s1]; simpl in *; [|done].
  destruct (Hf a s1) as [Hr Hc]. by rewrite Hr, Hc.
Qed.

Lemma quiet_finish {A} (o : Outcome) : quiet P (@finish A o).
Proof. by intros s. Qed.

Lemma quiet_process_exit {A} (code : Z) : quiet P (@process_exit A code).
Proof. by intros s. Qed.

Lemma quiet_when (b : bool) (m : Prog unit) : quiet P m → quiet P (when b m).
Proof. intros Hm. destruct b; [done|]. apply quiet_ret. Qed.

Lemma quiet_logger (l : Level) (message : string) :
  quiet P (effect (logger l message)).
Proof.
  intros s. simpl. split; [|done].
  rewrite requests_app. simpl. by rewrite app_nil_r.
Qed.

Lemma quiet_emit (e : Event) :
  match e with Send r => P r = false | _ => True end → quiet P (effect (emit e)).
Proof.
  intros He s. simpl. split; [|done]. rewrite requests_app, filter_app.
  destruct e as [| r | |]; simpl; rewrite ?app_nil_r; try done.
  rewrite filter_cons, decide_False by congruence. by rewrite app_nil_r.
Qed.

Lemma quiet_set_review_discussions (pool : list Discussion) :
  quiet P (effect (set_review_discussions pool)).
Proof. by intros s. Qed.

Lemma quiet_await {A} (r : Request) (answer : Promise A) :
  P r = false → quiet P (await r answer).
Proof.
  intros Hr s. unfold await.
  destruct (quiet_emit (Send r) Hr s) as [He Hc]. by destruct answer.
Qed.

End ProgFacts.

Ltac quiet_step :=
  first
    [ apply quiet_bind; [|intros ?]
    | apply quiet_when
    | apply quiet_logger
    | apply quiet_emit; done
    | apply quiet_await; done
    | apply quiet_set_review_discussions
    | apply quiet_process_exit
    | apply quiet_finish
    | apply quiet_ret
    | match goal with
      | |- quiet _ (if ?b then _ else _) => destruct b
      | |- quiet _ (match ?x with _ => _ end) => destruct x
      end ].

Section MainFacts.
Context `{Externals}.
Variable proc : Process.

(** Nothing is sent before GitLab is contacted. *)
Lemma quiet_preflight (P : Request → bool) : quiet P (preflight proc).
Proof. unfold preflight. repeat quiet_step. Qed.

Lemma quiet_lookup_merge_keys (world : World) (issues : list Issue) :
  quiet is_write (lookup_merge_keys proc world issues).
Proof. unfold lookup_merge_keys. repeat quiet_step. Qed.

(** No create or update request is sent before the loop over the issues. *)
Lemma quiet_fetch (world : World) : quiet is_write (fetch proc world).
Proof.
  unfold fetch. repeat quiet_step. apply quiet_lookup_merge_keys.
Qed.

End MainFacts.

Lemma filter_all {A} (l : list A) : filter (λ _, true = true) l = l.
Proof. induction l as [|x l IH]; [done|]. by rewrite filter_cons, decide_True, IH. Qed.

(** ** Findings without issues *)

Section EmptyFindings.
Context `{Externals}.
Variable proc : Process.
Variable world : World.
Hypothesis can_check : canCheckCoverity proc = true.
Hypothesis no_issues : on_readResults world (coverity_results_file proc) = Resolved [].

Lemma lookup_merge_keys_empty (w : World) (s : State) :
  lookup_merge_keys proc w [] s = (Continue ∅, s).
Proof. unfold lookup_merge_keys. by rewrite can_check. Qed.

(** With no issue in the results, [fetch] asks the Coverity server nothing
    and hands an empty list of issues to the loop. *)
Lemma fetch_empty (s : State) :
  (filter (λ r, is_lookup r = true) (requests (trace (fetch proc world s).2))
   = filter (λ r, is_lookup r = true) (requests (trace s))) ∧
  ∀ issues m diff_map s', fetch proc world s = (Continue (issues, m, diff_map), s') →
    issues = [].
Proof.
  unfold fetch, mbind, Prog_bind, mret, Prog_ret, await, effect. rewrite no_issues.
  destruct (on_gitlabGetProject world); simpl;
    [rewrite lookup_merge_keys_empty;
     destruct (match on_gitlabGetDiscussions world with
               | Resolved discussions => review_filter discussions
               | Rejected message => Rejected message
               end); simpl;
     [destruct (on_gitlabGetDiffMap world); simpl|]|].
  all: split; [|intros; by simplify_eq].
  all: rewrite <-!app_assoc, requests_app, filter_app; simpl; by rewrite app_nil_r.
Qed.

Lemma fetch_with_lookup (answer : gset string → Promise (gmap string CoverityProjectIssue))
    (s : State) :
  fetch proc (with_lookup world answer) s = fetch proc world s.
Proof.
  unfold fetch, mbind, Prog_bind, mret, Prog_ret, await, effect.
  cbn [on_readResults with_lookup]. rewrite no_issues.
  destruct (on_gitlabGetProject world) eqn:Hp; simpl; rewrite Hp; [|done].
  by rewrite !lookup_merge_keys_empty.
Qed.

Lemma sweep_sends_no_lookup (s : State) :
  filter (λ r, is_lookup r = true) (requests (trace (sweep proc world s)))
  = filter (λ r, is_lookup r = true) (requests (trace s)).
Proof.
  destruct (sweep_after proc world s) as (evs & (_ & _ & Ht & _) & Hreq).
  assert (filter (λ r, is_lookup r = true) (requests evs) = []) as Hnone.
  { rewrite Hreq. apply filter_none. by intros r (d & -> & _)%list_elem_of_fmap. }
  by rewrite Ht, requests_app, filter_app, Hnone, app_nil_r.
Qed.

End EmptyFindings.

(** ** The [in] operator *)

(** What the [in] operator of line 387 decides: a classification of
    "False Positive" or "Intentional" is no property of the array, so a
    record with one of them is ignored only when its action is "Ignore". *)
Lemma classify_in_operator (r : CoverityProjectIssue) :
  classification r = "False Positive" ∨ classification r = "Intentional" →
  classify (Some r)
  = (String.eqb (action r) "Ignore", firstSnapshotId r =? lastSnapshotId r).
Proof.
  intros Hc. unfold classify. f_equal.
  destruct Hc as [-> | ->]; by rewrite orb_false_r.
Qed.

(** ** The claims *)

(** C1. In a run over any issues and any pool of discussions, the
    discussions spliced out of the pool, for whichever issue and by whichever
    of the two lookups, together with the discussions left at the end, are
    the discussions of the initial pool, each as often as it is listed: a
    discussion spliced out for one issue is gone from the pool.  When the
    listed discussions have distinct ids, no discussion id is claimed twice
    and no claimed id is left in the pool. *)
Theorem at_most_one_match `{Externals} (proc : Process) (world : World)
    (mergeKeyToIssue : gmap string CoverityProjectIssue) (diff_map : DiffMap)
    (issues : list Issue) (pool : list Discussion) :
  let s' := reconcile proc world mergeKeyToIssue diff_map issues (start pool) in
  claimed_discussions s' ++ review_discussions s' ≡ₚ pool ∧
  (NoDup (id <$> pool) →
   NoDup (id <$> claimed_discussions s') ∧
   ∀ issue d, (issue, d) ∈ claimed s' → id d ∉ id <$> review_discussions s').
Proof.
  intros s'.
  pose proof (reconcile_perm proc world mergeKeyToIssue diff_map issues pool) as Hperm.
  cbn zeta in Hperm. fold s' in Hperm. split; [done|]. intros Hnd.
  rewrite <-Hperm, fmap_app in Hnd. apply NoDup_app in Hnd as (Hc & Hdisj & _).
  split; [done|]. intros issue d Hd.
  apply Hdisj, list_elem_of_fmap_2.
  unfold claimed_discussions. by apply (list_elem_of_fmap_2 snd) in Hd.
Qed.

Lemma at_most_one_match_witness :
  NoDup (id <$> [Double.positioned_K1; Double.unpositioned_K1]) ∧
  NoDup (id <$> claimed_discussions
           (@reconcile Double.externals Double.proc (Double.world [] [] []) ∅ []
              [Double.K1; Double.K2]
              (start [Double.positioned_K1; Double.unpositioned_K1]))).
Proof.
  assert (NoDup (id <$> [Double.positioned_K1; Double.unpositioned_K1])) as Hnd.
  { apply (bool_decide_unpack _). vm_compute. exact I. }
  split; [exact Hnd|].
  exact (proj1 (proj2 (@at_most_one_match Double.externals Double.proc
                         (Double.world [] [] []) ∅ [] [Double.K1; Double.K2] _) Hnd)).
Defined.

(** C2. In a run over a pool whose discussions are told apart by what an
    update request names, every discussion left in the pool after the loop
    over the issues is named by exactly one update request of the whole run
    when its root-note body passes the presence check, the request that
    writes the no-longer-present variant of that body, and by no update
    request when it does not. *)
Theorem sweep_resolves_remaining `{Externals} (proc : Process) (world : World)
    (mergeKeyToIssue : gmap string CoverityProjectIssue) (diff_map : DiffMap)
    (issues : list Issue) (pool : list Discussion) :
  NoDup (update_target <$> pool) →
  let s' := reconcile proc world mergeKeyToIssue diff_map issues (start pool) in
  ∀ d, d ∈ review_discussions s' →
    updates_of (update_target d) (trace s') =
      if coverityIsPresent (body (root d))
      then [update_request proc d
              (coverityCreateNoLongerPresentMessage (body (root d)))]
      else [].
Proof.
  intros Hnd s' d Hd.
  pose proof (reconcile_perm proc world mergeKeyToIssue diff_map issues pool) as Hperm.
  cbn zeta in Hperm. fold s' in Hperm.
  subst s'. unfold reconcile in *.
  set (s1 := process_issues proc world mergeKeyToIssue diff_map issues (start pool)) in *.
  destruct (sweep_after proc world s1) as (evs & (Hp & Hc & Ht & _) & Hreq).
  unfold claimed_discussions in Hperm. rewrite Hp, Hc in Hperm. rewrite Hp in Hd.
  rewrite <-Hperm, fmap_app in Hnd. apply NoDup_app in Hnd as (_ & Hdisj & Hrest).
  rewrite Ht, updates_of_app.
  assert (updates_of (update_target d) (trace s1) = []) as ->.
  { unfold updates_of. apply filter_none. intros r Hr Hu.
    assert (updates_claimed s1) as Hinv.
    { apply process_issues_updates_claimed. intros ? ? Hin. by apply elem_of_nil in Hin. }
    eapply Hdisj; [by eapply Hinv|]. by apply list_elem_of_fmap_2. }
  simpl. unfold updates_of. rewrite Hreq. by apply sweep_requests_of.
Qed.

Lemma sweep_resolves_remaining_witness :
  let pool := [Double.positioned_K1; Double.unpositioned_K1] in
  let s' := @reconcile Double.externals Double.proc (Double.world [] [] []) ∅ []
              [Double.K2] (start pool) in
  NoDup (@update_target Double.externals <$> pool) ∧
  Double.unpositioned_K1 ∈ review_discussions s' ∧
  updates_of (@update_target Double.externals Double.unpositioned_K1) (trace s') =
    if @coverityIsPresent Double.externals (body (root Double.unpositioned_K1))
    then [@update_request Double.externals Double.proc Double.unpositioned_K1
            (@coverityCreateNoLongerPresentMessage Double.externals
               (body (root Double.unpositioned_K1)))]
    else [].
Proof.
  intros pool s'.
  assert (NoDup (@update_target Double.externals <$> pool)) as Hnd.
  { apply (bool_decide_unpack _). vm_compute. exact I. }
  assert (Double.unpositioned_K1 ∈ review_discussions s') as Hin.
  { apply (bool_decide_unpack _). vm_compute. exact I. }
  split; [exact Hnd|]. split; [exact Hin|].
  exact (@sweep_resolves_remaining Double.externals Double.proc (Double.world [] [] [])
           ∅ [] [Double.K2] pool Hnd Double.unpositioned_K1 Hin).
Defined.

(** C3. The server record of K1 has action "Undecided" and classification
    "False Positive", and has been seen in one snapshot.  The program computes
    [newOnServer = true], as the claim says, but [ignoredOnServer = false],
    where the claim says true.  In the other direction a record whose
    classification is the string "length" counts as ignored. *)
Theorem false_positive_is_not_ignored :
  let record := {| action := "Undecided"; classification := "False Positive";
                   firstSnapshotId := 5; lastSnapshotId := 5 |} in
  let odd := {| action := "Undecided"; classification := "length";
                firstSnapshotId := 5; lastSnapshotId := 6 |} in
  ignoredOnServer {[ "K1" := record ]} Double.K1 = false ∧
  newOnServer {[ "K1" := record ]} Double.K1 = true ∧
  ignoredOnServer {[ "K1" := odd ]} Double.K1 = true.
Proof.
  cbn zeta. unfold ignoredOnServer, newOnServer. simpl mergeKey.
  rewrite !lookup_singleton_eq. by vm_compute.
Qed.

(** C4, as stated, fails: the pool holds a discussion anchored at the line
    of K1 and an unpositioned discussion, both mentioning K1.  After K1 is
    processed the positioned one has been updated, and the unpositioned one
    is not left in the pool: the pool is empty. *)
Lemma positioned_priority_counterexample :
  let pool := [Double.positioned_K1; Double.unpositioned_K1] in
  let s' := @process_issue Double.externals Double.proc (Double.world [] [] [])
              ∅ [] Double.K1 (start pool) in
  (Double.positioned_K1 ∈ pool ∧
   @positioned_match Double.K1 Double.positioned_K1 = true ∧
   Double.unpositioned_K1 ∈ pool ∧
   position (root Double.unpositioned_K1) = None ∧
   comment_match Double.K1 Double.unpositioned_K1 = true) ∧
  requests (trace s') =
    [@update_request Double.externals Double.proc Double.positioned_K1
       (@reviewCommentBody Double.externals Double.K1)] ∧
  ¬ Double.unpositioned_K1 ∈ review_discussions s'.
Proof.
  cbn zeta. split; [|split].
  - repeat split; try (by vm_compute); apply (bool_decide_unpack _); by vm_compute.
  - by vm_compute.
  - assert (review_discussions
              (@process_issue Double.externals Double.proc (Double.world [] [] [])
                 ∅ [] Double.K1
                 (start [Double.positioned_K1; Double.unpositioned_K1])) = []) as ->
      by (by vm_compute).
    apply not_elem_of_nil.
Qed.

(** C4, amended.  When the pool holds a positioned match for an issue and an
    unpositioned discussion whose body contains its mergeKey, processing the
    issue splices two discussions out of the pool: [chosen], the first
    positioned match, and then [other], the first of the remaining
    discussions whose body contains the mergeKey.  The only request that may
    be sent is the update of [chosen], skipped when its body is the review
    message already; [other] is named by no request and, like [chosen], is
    gone from the pool. *)
Theorem positioned_match_takes_both `{Externals} (proc : Process) (world : World)
    (mergeKeyToIssue : gmap string CoverityProjectIssue) (diff_map : DiffMap)
    (issue : Issue) (s : State) (positioned unpositioned : Discussion) :
  positioned ∈ review_discussions s →
  positioned_match issue positioned = true →
  unpositioned ∈ review_discussions s →
  position (root unpositioned) = None →
  comment_match issue unpositioned = true →
  let s' := process_issue proc world mergeKeyToIssue diff_map issue s in
  ∃ chosen other before after before' after' evs,
    review_discussions s = before ++ chosen :: after ∧
    Forall (λ d, positioned_match issue d = false) before ∧
    positioned_match issue chosen = true ∧
    before ++ after = before' ++ other :: after' ∧
    Forall (λ d, comment_match issue d = false) before' ∧
    comment_match issue other = true ∧
    review_discussions s' = before' ++ after' ∧
    claimed s' = claimed s ++ [(issue, chosen); (issue, other)] ∧
    trace s' = trace s ++ evs ∧
    requests evs =
      if String.eqb (body (root chosen)) (reviewCommentBody issue) then []
      else [update_request proc chosen (reviewCommentBody issue)].
Proof.
  intros Hpos Hpm Hun Hnone Hcm s'.
  destruct (process_issue_spec proc world mergeKeyToIssue diff_map issue s)
    as (ed & ec & pool1 & pool2 & evs & Hed & Hec & Hp & Hc & [Ht _] & Hreq).
  fold s' in Hp, Hc, Ht.
  destruct ed as [chosen|]; last first.
  { apply extract_none_inv in Hed as [_ Hall].
    rewrite Forall_forall in Hall. by rewrite (Hall _ Hpos) in Hpm. }
  apply extract_some_inv in Hed as (before & after & Hpool & Hbefore & Hchosen & ->).
  assert (unpositioned ≠ chosen) as Hne.
  { intros ->. unfold positioned_match in Hchosen.
    rewrite Hnone in Hchosen. by simpl in Hchosen. }
  assert (unpositioned ∈ before ++ after) as Hun1.
  { rewrite Hpool, elem_of_app, elem_of_cons in Hun. apply elem_of_app.
    destruct Hun as [?|[?|?]]; [by left|done|by right]. }
  destruct ec as [other|]; last first.
  { apply extract_none_inv in Hec as [_ Hall].
    rewrite Forall_forall in Hall. by rewrite (Hall _ Hun1) in Hcm. }
  apply extract_some_inv in Hec as (before' & after' & Hpool1 & Hbefore' & Hother & ->).
  by exists chosen, other, before, after, before', after', evs.
Qed.

Lemma positioned_match_takes_both_witness :
  let s := start [Double.positioned_K1; Double.unpositioned_K1] in
  let s' := @process_issue Double.externals Double.proc (Double.world [] [] [])
              ∅ [] Double.K1 s in
  ∃ chosen other before after before' after' evs,
    review_discussions s = before ++ chosen :: after ∧
    Forall (λ d, positioned_match Double.K1 d = false) before ∧
    positioned_match Double.K1 chosen = true ∧
    before ++ after = before' ++ other :: after' ∧
    Forall (λ d, comment_match Double.K1 d = false) before' ∧
    comment_match Double.K1 other = true ∧
    review_discussions s' = before' ++ after' ∧
    claimed s' = claimed s ++ [(Double.K1, chosen); (Double.K1, other)] ∧
    trace s' = trace s ++ evs ∧
    requests evs =
      if String.eqb (body (root chosen)) (@reviewCommentBody Double.externals Double.K1)
      then []
      else [@update_request Double.externals Double.proc chosen
              (@reviewCommentBody Double.externals Double.K1)].
Proof.
  apply (@positioned_match_takes_both Double.externals Double.proc
           (Double.world [] [] []) ∅ [] Double.K1
           (start [Double.positioned_K1; Double.unpositioned_K1])
           Double.positioned_K1 Double.unpositioned_K1).
  - apply (bool_decide_unpack _). vm_compute. exact I.
  - vm_compute. reflexivity.
  - apply (bool_decide_unpack _). vm_compute. exact I.
  - reflexivity.
  - vm_compute. reflexivity.
Defined.

(** C5.  The pool holds one unpositioned discussion that mentions K1, and K1
    is outside the diff.  The first run updates the discussion with the
    review message.  With that update applied and nothing else changed, the
    second run sends the same update again: the discussion is compared with
    the issue message and rewritten with the review message, so its body
    being the body the update writes does not skip the update. *)
Theorem second_run_updates_again :
  let reconcile_K1 pool :=
    @reconcile Double.externals Double.proc (Double.world [] [] []) ∅ []
      [Double.K1] (start pool) in
  let first := reconcile_K1 [Double.unpositioned_K1] in
  let served := foldl (λ pool r, Double.serve r pool) [Double.unpositioned_K1]
                  (write_requests (trace first)) in
  let second := reconcile_K1 served in
  served = [Double.updated_K1] ∧
  write_requests (trace first) =
    [@update_request Double.externals Double.proc Double.unpositioned_K1
       (@reviewCommentBody Double.externals Double.K1)] ∧
  write_requests (trace second) =
    [@update_request Double.externals Double.proc Double.updated_K1
       (body (root Double.updated_K1))].
Proof. by vm_compute. Qed.

(** C6, as stated, fails: K1 is unknown to the server, and the program takes
    it for new. *)
Lemma unknown_issue_counterexample :
  (∅ : gmap string CoverityProjectIssue) !! mergeKey Double.K1 = None ∧
  ¬ (ignoredOnServer ∅ Double.K1 = false ∧ newOnServer ∅ Double.K1 = false).
Proof. split; [done|]. by intros [_ Hnew]. Qed.

(** C6, amended.  An issue whose mergeKey the lookup result does not hold is
    taken for not ignored and new; when no discussion of the pool matches
    it, it is not skipped: exactly one create request is sent for it,
    positioned when the issue is in the diff and unpositioned otherwise. *)
Theorem unknown_issue_is_new `{Externals} (proc : Process) (world : World)
    (mergeKeyToIssue : gmap string CoverityProjectIssue) (diff_map : DiffMap)
    (issue : Issue) (s : State) :
  mergeKeyToIssue !! mergeKey issue = None →
  Forall (λ d, positioned_match issue d = false) (review_discussions s) →
  Forall (λ d, comment_match issue d = false) (review_discussions s) →
  let s' := process_issue proc world mergeKeyToIssue diff_map issue s in
  ignoredOnServer mergeKeyToIssue issue = false ∧
  newOnServer mergeKeyToIssue issue = true ∧
  ∃ evs,
    trace s' = trace s ++ evs ∧
    requests evs =
      [if coverityIsInDiff issue diff_map then
         gitlabCreateDiscussion (gitlab proc) (mainEventLineNumber issue)
           (strippedMainEventFilePathname issue) (reviewCommentBody issue)
           (or_empty (getenv proc "CI_MERGE_REQUEST_DIFF_BASE_SHA"))
           (or_empty (getenv proc "CI_COMMIT_SHA"))
       else
         gitlabCreateDiscussionWithoutPosition (gitlab proc)
           (mainEventLineNumber issue) (strippedMainEventFilePathname issue)
           (issueCommentBody proc issue)].
Proof.
  intros Hm Hpos Hcom s'.
  assert (ignoredOnServer mergeKeyToIssue issue = false) as Hig
    by (unfold ignoredOnServer; by rewrite Hm).
  assert (newOnServer mergeKeyToIssue issue = true) as Hnew
    by (unfold newOnServer; by rewrite Hm).
  split; [done|]. split; [done|].
  destruct (process_issue_spec proc world mergeKeyToIssue diff_map issue s)
    as (ed & ec & pool1 & pool2 & evs & Hed & Hec & _ & _ & [Ht _] & Hreq).
  rewrite extract_none in Hed by done. injection Hed as <- <-.
  rewrite extract_none in Hec by done. injection Hec as <- <-.
  exists evs. split; [done|].
  rewrite Hreq, Hig, Hnew. unfold act_requests. simpl.
  by destruct (coverityIsInDiff issue diff_map).
Qed.

Lemma unknown_issue_is_new_witness :
  let s' := @process_issue Double.externals Double.proc (Double.world [] [] [])
              ∅ [("a.c", 10)] Double.K1 (start []) in
  ignoredOnServer ∅ Double.K1 = false ∧
  newOnServer ∅ Double.K1 = true ∧
  ∃ evs,
    trace s' = trace (start []) ++ evs ∧
    requests evs =
      [if @coverityIsInDiff Double.externals Double.K1 [("a.c", 10)] then
         gitlabCreateDiscussion (@gitlab Double.externals Double.proc)
           (mainEventLineNumber Double.K1) (strippedMainEventFilePathname Double.K1)
           (@reviewCommentBody Double.externals Double.K1)
           (or_empty (getenv Double.proc "CI_MERGE_REQUEST_DIFF_BASE_SHA"))
           (or_empty (getenv Double.proc "CI_COMMIT_SHA"))
       else
         gitlabCreateDiscussionWithoutPosition (@gitlab Double.externals Double.proc)
           (mainEventLineNumber Double.K1) (strippedMainEventFilePathname Double.K1)
           (@issueCommentBody Double.externals Double.proc Double.K1)].
Proof.
  apply (@unknown_issue_is_new Double.externals Double.proc (Double.world [] [] [])
           ∅ [("a.c", 10)] Double.K1 (start [])).
  - reflexivity.
  - constructor.
  - constructor.
Defined.

(** C7.  When no discussion of the pool matches an issue, neither as a
    positioned nor as an unpositioned match, and the issue is ignored on the
    server, or is not ignored and not new, processing it sends no request at
    all, so neither a create nor an update, and leaves the pool as it is. *)
Theorem no_comment_when_ignored_or_known `{Externals} (proc : Process)
    (world : World) (mergeKeyToIssue : gmap string CoverityProjectIssue)
    (diff_map : DiffMap) (issue : Issue) (s : State) :
  Forall (λ d, positioned_match issue d = false) (review_discussions s) →
  Forall (λ d, comment_match issue d = false) (review_discussions s) →
  ignoredOnServer mergeKeyToIssue issue = true ∨
  (ignoredOnServer mergeKeyToIssue issue = false ∧
   newOnServer mergeKeyToIssue issue = false) →
  let s' := process_issue proc world mergeKeyToIssue diff_map issue s in
  requests (trace s') = requests (trace s) ∧
  review_discussions s' = review_discussions s ∧
  claimed s' = claimed s.
Proof.
  intros Hpos Hcom Hstate s'.
  destruct (process_issue_spec proc world mergeKeyToIssue diff_map issue s)
    as (ed & ec & pool1 & pool2 & evs & Hed & Hec & Hp & Hc & [Ht _] & Hreq).
  fold s' in Hp, Hc, Ht.
  rewrite extract_none in Hed by done. injection Hed as <- <-.
  rewrite extract_none in Hec by done. injection Hec as <- <-.
  rewrite Hp, Hc, Ht, requests_app, Hreq. simpl. rewrite !app_nil_r.
  split; [|done]. unfold act_requests.
  destruct Hstate as [-> | [-> ->]]; simpl; by rewrite app_nil_r.
Qed.

Lemma no_comment_when_ignored_or_known_witness :
  let known := {| action := "Undecided"; classification := "Unclassified";
                  firstSnapshotId := 1; lastSnapshotId := 3 |} in
  let s := start [] in
  let s' := @process_issue Double.externals Double.proc (Double.world [] [] [])
              {[ "K1" := known ]} [("a.c", 10)] Double.K1 s in
  requests (trace s') = requests (trace s) ∧
  review_discussions s' = review_discussions s ∧
  claimed s' = claimed s.
Proof.
  apply (@no_comment_when_ignored_or_known Double.externals Double.proc
           (Double.world [] [] [])
           {[ "K1" := {| action := "Undecided"; classification := "Unclassified";
                         firstSnapshotId := 1; lastSnapshotId := 3 |} ]}
           [("a.c", 10)] Double.K1 (start [])).
  - constructor.
  - constructor.
  - right. unfold ignoredOnServer, newOnServer. simpl mergeKey.
    rewrite !lookup_singleton_eq. split; vm_compute; reflexivity.
Defined.

(** C8.  The process passes the checks of its configuration, the project and
    the results are read, there is at least one issue, the Coverity
    connection info is complete, and the lookup of the merge keys is rejected.
    Then the run ends with [process.exit(1)] right after logging the error:
    the lookup is the last request, so the discussions are not even listed,
    no create or update request is sent and no discussion is matched. *)
Theorem lookup_failure_aborts `{Externals} (proc : Process) (world : World)
    (project : string) (issues : list Issue) (message : string) :
  (preflight proc initial_state).1 = Continue tt →
  on_gitlabGetProject world = Resolved project →
  on_readResults world (coverity_results_file proc) = Resolved issues →
  issues ≠ [] →
  canCheckCoverity proc = true →
  on_coverityMapMatchingMergeKeys world (list_to_set (mergeKey <$> issues))
    = Rejected message →
  (run proc world).1 = Stop (Exit 1) ∧
  requests (trace (run proc world).2) =
    [ gitlabGetProject (getenv proc "CI_SERVER_URL") (getenv proc "GITLAB_TOKEN")
        (getenv proc "CI_PROJECT_ID");
      readResults (coverity_results_file proc);
      coverityMapMatchingMergeKeys (coverity_url proc) (getenv proc "COV_USER")
        (getenv proc "COVERITY_PASSPHRASE") (coverity_project_name proc)
        (list_to_set (mergeKey <$> issues)) ] ∧
  last (trace (run proc world).2) = Some (Log error message) ∧
  write_requests (trace (run proc world).2) = [] ∧
  claimed (run proc world).2 = [].
Proof.
  intros Hpre Hproject Hread Hissues Hcan Hlookup.
  pose proof (quiet_preflight proc (λ _, true) initial_state) as [Hq0 Hc0].
  rewrite filter_all in Hq0. simpl in Hq0, Hc0.
  assert (∃ s', run proc world = (Stop (Exit 1), s') ∧
            trace s' = trace (preflight proc initial_state).2 ++
              [ Log info ("Connecting to GitLab: " +:+ JS.template (getenv proc "CI_SERVER_URL"));
                Send (gitlabGetProject (getenv proc "CI_SERVER_URL")
                        (getenv proc "GITLAB_TOKEN") (getenv proc "CI_PROJECT_ID"));
                Log debug ("Project=" +:+ project);
                Send (readResults (coverity_results_file proc));
                Send (coverityMapMatchingMergeKeys (coverity_url proc)
                        (getenv proc "COV_USER") (getenv proc "COVERITY_PASSPHRASE")
                        (coverity_project_name proc) (list_to_set (mergeKey <$> issues)));
                Log error message ] ∧
            claimed s' = claimed (preflight proc initial_state).2)
    as (s' & -> & Ht & Hc).
  { unfold run, main, main_after_preflight. unfold mbind at 1. unfold Prog_bind at 1.
    destruct (preflight proc initial_state) as [[[]|o] s0]; [|done].
    unfold fetch, mbind, Prog_bind, await, effect. rewrite Hproject, Hread.
    unfold lookup_merge_keys. rewrite Hcan. simpl.
    rewrite bool_decide_eq_true_2 by (destruct issues; [done|simpl; lia]).
    unfold mbind, Prog_bind, effect. rewrite Hlookup. simpl.
    eexists. split; [done|]. simpl. by rewrite <-!app_assoc. }
  simpl. rewrite Hc, Hc0, Ht. unfold write_requests.
  rewrite requests_app, Hq0, last_app. by simpl.
Qed.

Lemma lookup_failure_aborts_witness :
  let world :=
    with_lookup (Double.world [Double.K1] [] []) (λ _, Rejected "ECONNREFUSED") in
  (@run Double.externals Double.proc world).1 = Stop (Exit 1) ∧
  requests (trace (@run Double.externals Double.proc world).2) =
    [ gitlabGetProject (getenv Double.proc "CI_SERVER_URL")
        (getenv Double.proc "GITLAB_TOKEN") (getenv Double.proc "CI_PROJECT_ID");
      readResults (coverity_results_file Double.proc);
      coverityMapMatchingMergeKeys (coverity_url Double.proc)
        (getenv Double.proc "COV_USER") (getenv Double.proc "COVERITY_PASSPHRASE")
        (coverity_project_name Double.proc)
        (list_to_set (mergeKey <$> [Double.K1])) ] ∧
  last (trace (@run Double.externals Double.proc world).2)
    = Some (Log error "ECONNREFUSED") ∧
  write_requests (trace (@run Double.externals Double.proc world).2) = [] ∧
  claimed (@run Double.externals Double.proc world).2 = [].
Proof.
  apply (@lookup_failure_aborts Double.externals Double.proc
           (with_lookup (Double.world [Double.K1] [] []) (λ _, Rejected "ECONNREFUSED"))
           "demo" [Double.K1] "ECONNREFUSED").
  - vm_compute. reflexivity.
  - reflexivity.
  - reflexivity.
  - discriminate.
  - vm_compute. reflexivity.
  - reflexivity.
Defined.

(** C9.  Take any run and the same run with any other fates for its create
    and update requests, for instance with one rejected request resolved
    instead.  Both runs end the same way, with the same pool, the same
    discussions spliced out and the same trace up to error logs: every
    request and every other log entry is the same, in the same order, so no
    rejection aborts the run or changes what is done for another issue or in
    the sweep.  The error logs of a run are those of the other run plus one
    for each of its rejected requests, minus one for each rejected request
    of the other. *)
Theorem write_failures_are_isolated `{Externals} (proc : Process) (world : World)
    (fate : nat → Request → option string) :
  let failing := run proc world in
  let other := run proc (with_on_write world fate) in
  failing.1 = other.1 ∧
  same_but_errors failing.2 other.2 ∧
  (length (error_logs (trace failing.2))
   + rejected_writes (with_on_write world fate) 0 (write_requests (trace other.2)))%nat
  = (length (error_logs (trace other.2))
     + rejected_writes world 0 (write_requests (trace failing.2)))%nat.
Proof.
  cbn zeta. unfold run, main, main_after_preflight, mbind, Prog_bind.
  pose proof (quiet_preflight proc is_write initial_state) as [Hq0 _].
  destruct (preflight proc initial_state) as [[[]|o] s0]; simpl in Hq0;
    fold (write_requests (trace s0)) in Hq0.
  - change (fetch proc (with_on_write world fate)) with (fetch proc world).
    pose proof (quiet_fetch proc world s0) as [Hq1 _].
    destruct (fetch proc world s0) as [[[[issues m] diff_map]|o] s1]; simpl in Hq1;
      fold (write_requests (trace s1)) in Hq1;
      fold (write_requests (trace s0)) in Hq1; rewrite Hq0 in Hq1.
    + unfold reconcile_and_exit, mbind, Prog_bind, effect.
      pose proof (sim_reconcile proc world (with_on_write world fate) m diff_map
                    issues s1 s1 (same_but_errors_refl s1)) as HR.
      destruct (reconcile_extends proc world m diff_map issues s1)
        as (evs1 & Ht1 & He1).
      destruct (reconcile_extends proc (with_on_write world fate) m diff_map issues s1)
        as (evs2 & Ht2 & He2).
      rewrite Hq1 in He1, He2. simpl in He1, He2.
      set (f := reconcile proc world m diff_map issues s1) in *.
      set (g := reconcile proc (with_on_write world fate) m diff_map issues s1) in *.
      assert (∀ s, (if bool_decide (0 < length issues)%nat
                    then @process_exit unit 1 else process_exit 0) s
                   = (Stop (Exit (if bool_decide (0 < length issues)%nat then 1 else 0)), s))
        as Hexit by (intros s; by case_bool_decide).
      rewrite !Hexit. simpl.
      split; [done|]. split; [by apply sim_emit|].
      rewrite Ht1, Ht2, !error_logs_app, !write_requests_app, !length_app, Hq1, He1, He2.
      change (write_requests [Log info _]) with (@nil Request).
      rewrite !app_nil_r. simpl. lia.
    + simpl. split; [done|]. split; [apply same_but_errors_refl|].
      rewrite Hq1. simpl. lia.
  - simpl. split; [done|]. split; [apply same_but_errors_refl|].
    rewrite Hq0. simpl. lia.
Qed.

(** C10.  The Coverity connection info is complete and the results hold no
    issue.  Then the lookup stage leaves the mapping empty without doing
    anything, no request of the run is a lookup of merge keys, and the run is
    the same whatever the Coverity server would have answered, a rejection
    included. *)
Theorem empty_findings_skip_lookup `{Externals} (proc : Process) (world : World) :
  canCheckCoverity proc = true →
  on_readResults world (coverity_results_file proc) = Resolved [] →
  (∀ s, lookup_merge_keys proc world [] s = (Continue ∅, s)) ∧
  filter (λ r, is_lookup r = true) (requests (trace (run proc world).2)) = [] ∧
  ∀ answer, run proc (with_lookup world answer) = run proc world.
Proof.
  intros Hcan Hread. split; [|split].
  - intros s. by apply lookup_merge_keys_empty.
  - unfold run, main, main_after_preflight, mbind, Prog_bind.
    pose proof (quiet_preflight proc is_lookup initial_state) as [Hq0 _].
    destruct (preflight proc initial_state) as [[[]|o] s0]; simpl in Hq0; [|done].
    destruct (fetch_empty proc world Hcan Hread s0) as [Hq1 Hempty].
    destruct (fetch proc world s0) as [[[[issues m] diff_map]|o] s1]; simpl in Hq1;
      [|simpl; by rewrite Hq1, Hq0].
    rewrite (Hempty _ _ _ _ eq_refl). simpl.
    rewrite requests_app, filter_app. simpl. rewrite app_nil_r.
    unfold reconcile. simpl. by rewrite sweep_sends_no_lookup, Hq1, Hq0.
  - intros answer. unfold run, main, main_after_preflight, mbind, Prog_bind.
    destruct (preflight proc initial_state) as [[[]|o] s0]; [|done].
    by rewrite fetch_with_lookup.
Qed.

Lemma empty_findings_skip_lookup_witness :
  let world := Double.world [] [Double.as_listed Double.unpositioned_K1] [] in
  (∀ s, @lookup_merge_keys Double.externals Double.proc world [] s = (Continue ∅, s)) ∧
  filter (λ r, is_lookup r = true)
    (requests (trace (@run Double.externals Double.proc world).2)) = [] ∧
  ∀ answer, @run Double.externals Double.proc (with_lookup world answer)
            = @run Double.externals Double.proc world.
Proof.
  apply (@empty_findings_skip_lookup Double.externals Double.proc
           (Double.world [] [Double.as_listed Double.unpositioned_K1] [])).
  - vm_compute. reflexivity.
  - reflexivity.
Defined.

(** * Further properties of the program *)

(** ** The checks before GitLab is contacted *)

Section PreflightFacts.
Context `{Externals}.
Variable proc : Process.

(** How [preflight] ends, as a table of the configuration. *)
Lemma preflight_outcome (s : State) :
  (preflight proc s).1 =
    if negb (JS.truthy (coverity_url proc)) then Stop (Exit 1)
    else if negb (JS.truthy (coverity_project_name proc)) then Stop (Exit 1)
    else if negb (forallb (λ v, JS.truthy (getenv proc v)) required_variables)
    then Stop (Exit 1)
    else if is_merge_request proc then
      if JS.truthy (getenv proc "CI_MERGE_REQUEST_DIFF_BASE_SHA")
      then Continue tt else Stop (Exit 1)
    else
      if JS.truthy (getenv proc "CI_COMMIT_BRANCH")
      then Stop Returned else Stop (Exit 1).
Proof.
  unfold preflight, when, mbind, Prog_bind, mret, Prog_ret, effect, process_exit, finish.
  unfold required_variables, forallb.
  unfold is_merge_request.
  repeat match goal with
         | |- context [JS.truthy ?x] => destruct (JS.truthy x) eqn:?; simpl
         | |- context [bool_decide ?P] => destruct (bool_decide P); simpl
         | |- context [opt_debug ?o] => destruct (opt_debug o); simpl
         end; done.
Qed.

End PreflightFacts.

(** ** How a run is put together *)

Section RunFacts.
Context `{Externals}.
Variable proc : Process.
Variable world : World.

(** A run is [preflight], then [fetch], then the reconciliation, and stops
    where the first of them stops. *)
Lemma run_cases :
  let checked := preflight proc initial_state in
  match checked.1 with
  | Stop o => run proc world = (Stop o, checked.2)
  | Continue _ =>
      match fetch proc world checked.2 with
      | (Stop o, s1) => run proc world = (Stop o, s1)
      | (Continue (issues, mergeKeyToIssue, diff_map), s1) =>
          run proc world =
            (Stop (Exit (if bool_decide (0 < length issues)%nat then 1 else 0)),
             logger info ("Found " +:+ pretty (length issues) +:+ " Coverity issues.")
               (reconcile proc world mergeKeyToIssue diff_map issues s1))
      end
  end.
Proof.
  cbn zeta. unfold run, main, main_after_preflight, mbind, Prog_bind.
  destruct (preflight proc initial_state) as [[[]|o] s0]; simpl; [|done].
  destruct (fetch proc world s0) as [[[[issues m] diff_map]|o] s1]; [|done].
  unfold reconcile_and_exit, mbind, Prog_bind, effect. by case_bool_decide.
Qed.

(** What [fetch] hands to the loop is what the outside world answered. *)
Lemma fetch_continue (s s1 : State) (issues : list Issue)
    (mergeKeyToIssue : gmap string CoverityProjectIssue) (diff_map : DiffMap) :
  fetch proc world s = (Continue (issues, mergeKeyToIssue, diff_map), s1) →
  on_readResults world (coverity_results_file proc) = Resolved issues ∧
  (∃ listing, on_gitlabGetDiscussions world = Resolved listing ∧
              review_filter listing = Resolved (review_discussions s1)) ∧
  on_gitlabGetDiffMap world = Resolved diff_map ∧
  claimed s1 = claimed s ∧
  (mergeKeyToIssue = ∅ ∨
   (canCheckCoverity proc = true ∧ issues ≠ [] ∧
    on_coverityMapMatchingMergeKeys world (list_to_set (mergeKey <$> issues))
      = Resolved mergeKeyToIssue)).
Proof.
  unfold fetch, lookup_merge_keys, mbind, Prog_bind, mret, Prog_ret, await, effect,
    process_exit, finish.
  destruct (on_gitlabGetProject world); simpl; [|done].
  destruct (on_readResults world (coverity_results_file proc)) as [read|]; simpl; [|done].
  destruct (canCheckCoverity proc); simpl.
  - case_bool_decide as Hlen; simpl.
    + destruct (on_coverityMapMatchingMergeKeys world _) as [found|] eqn:Hfound;
        simpl; [|done].
      destruct (on_gitlabGetDiscussions world) as [listing|]; simpl; [|done].
      destruct (review_filter listing) as [pool|] eqn:Hpool; simpl; [|done].
      destruct (on_gitlabGetDiffMap world); simpl; [|done].
      intros ?; simplify_eq/=. do 4 (split; [by eauto|]).
      right. split; [done|]. split; [|done]. intros ->. simpl in Hlen. lia.
    + destruct (on_gitlabGetDiscussions world) as [listing|]; simpl; [|done].
      destruct (review_filter listing) as [pool|] eqn:Hpool; simpl; [|done].
      destruct (on_gitlabGetDiffMap world); simpl; [|done].
      intros ?; simplify_eq/=. do 4 (split; [by eauto|]). by left.
  - destruct (on_gitlabGetDiscussions world) as [listing|]; simpl; [|done].
    destruct (review_filter listing) as [pool|] eqn:Hpool; simpl; [|done].
    destruct (on_gitlabGetDiffMap world); simpl; [|done].
    intros ?; simplify_eq/=. do 4 (split; [by eauto|]). by left.
Qed.


End RunFacts.

(** ** The pool of discussions *)

Section PoolFacts.
Context `{Externals}.

Lemma review_filter_resolved (ds : list ApiDiscussion) :
  Forall (λ d, api_notes d ≠ []) ds →
  review_filter ds =
    Resolved (filter (λ d, JS.includes (body (root d)) COVERITY_COMMENT_PREFACE = true)
                (omap listed ds)).
Proof.
  induction 1 as [|d ds Hd _ IH]; [done|].
  simpl. unfold listed at 1. destruct (api_notes d) as [|note notes]; [done|].
  rewrite IH, filter_cons. simpl.
  destruct (JS.includes (body note) COVERITY_COMMENT_PREFACE); by case_decide.
Qed.

Lemma review_filter_rejected (ds : list ApiDiscussion) :
  Exists (λ d, api_notes d = []) ds → ∃ message, review_filter ds = Rejected message.
Proof.
  induction 1 as [d ds Hd|d ds _ [message IH]]; simpl.
  - rewrite Hd. eauto.
  - rewrite IH. destruct (api_notes d); eauto.
Qed.

Lemma notes_everywhere_or_not (ds : list ApiDiscussion) :
  Forall (λ d, api_notes d ≠ []) ds ∨ Exists (λ d, api_notes d = []) ds.
Proof.
  induction ds as [|d ds [IH|IH]]; [by left| |right; by right].
  destruct (api_notes d) eqn:Hd; [right; by left|].
  left. constructor; [|done]. by rewrite Hd.
Qed.

(** A discussion of the pool stands for a listed discussion whose first note
    holds the marker. *)
Lemma review_filter_elem (ds : list ApiDiscussion) (pool : list Discussion)
    (d : Discussion) :
  review_filter ds = Resolved pool → d ∈ pool →
  ∃ a, a ∈ ds ∧ listed a = Some d ∧
       JS.includes (body (root d)) COVERITY_COMMENT_PREFACE = true.
Proof.
  intros Hpool Hd.
  destruct (notes_everywhere_or_not ds) as [Hall|Hsome].
  - rewrite review_filter_resolved in Hpool by done. injection Hpool as <-.
    apply list_elem_of_filter in Hd as [Hmarker Hd].
    apply list_elem_of_omap in Hd as (a & Ha & Hlisted). eauto.
  - destruct (review_filter_rejected ds Hsome) as [message Hrej]. congruence.
Qed.

End PoolFacts.

(** X1.  The pool of a run is made of the listed discussions whose first note
    contains the marker, in the order of the listing, each with its first
    note as root; notes after the first are not looked at.  The listing is
    turned down as a whole exactly when one of its discussions has no note. *)
Theorem review_filter_keeps_marked `{Externals} (ds : list ApiDiscussion) :
  (∀ pool, review_filter ds = Resolved pool ↔
     Forall (λ d, api_notes d ≠ []) ds ∧
     pool = filter (λ d, JS.includes (body (root d)) COVERITY_COMMENT_PREFACE = true)
              (omap listed ds)) ∧
  ((∃ message, review_filter ds = Rejected message) ↔
     Exists (λ d, api_notes d = []) ds).
Proof.
  destruct (notes_everywhere_or_not ds) as [Hall|Hsome].
  - pose proof (review_filter_resolved ds Hall) as Hres. split.
    + intros pool. rewrite Hres. split; [by intros [= <-]|by intros [_ ->]].
    + rewrite Hres. split; [by intros [? ?]|].
      intros Hsome. apply Exists_exists in Hsome as (d & Hd & Hnone).
      rewrite Forall_forall in Hall. by destruct (Hall d Hd).
  - destruct (review_filter_rejected ds Hsome) as [message Hrej]. split.
    + intros pool. rewrite Hrej. split; [done|]. intros [Hall _].
      apply Exists_exists in Hsome as (d & Hd & Hnone).
      rewrite Forall_forall in Hall. by destruct (Hall d Hd).
    + split; [done|]. eauto.
Qed.

(** X2.  When the listed discussions have distinct ids, so have the
    discussions of the pool. *)
Theorem review_filter_keeps_ids_distinct `{Externals} (ds : list ApiDiscussion)
    (pool : list Discussion) :
  NoDup (api_id <$> ds) → review_filter ds = Resolved pool → NoDup (id <$> pool).
Proof.
  intros Hnd Hpool.
  destruct (notes_everywhere_or_not ds) as [Hall|Hsome]; last first.
  { destruct (review_filter_rejected ds Hsome) as [message Hrej]. congruence. }
  rewrite review_filter_resolved in Hpool by done. injection Hpool as <-.
  clear Hall. induction ds as [|a ds IH]; [constructor|].
  rewrite fmap_cons in Hnd. apply NoDup_cons in Hnd as [Ha Hnd].
  simpl. unfold listed at 1. destruct (api_notes a) as [|note notes]; [by apply IH|].
  rewrite filter_cons. case_decide; [|by apply IH].
  rewrite fmap_cons. apply NoDup_cons. split; [|by apply IH]. simpl.
  intros (d & Hid & Hd)%list_elem_of_fmap. apply Ha.
  apply list_elem_of_filter in Hd as [_ Hd].
  apply list_elem_of_omap in Hd as (b & Hb & Hlisted).
  apply list_elem_of_fmap. exists b. split; [|done].
  unfold listed in Hlisted. destruct (api_notes b); simplify_eq/=. done.
Qed.

(** ** Requests of the reconciliation *)

Section RequestFacts.
Context `{Externals}.
Variable proc : Process.
Variable world : World.
Variable mergeKeyToIssue : gmap string CoverityProjectIssue.
Variable diff_map : DiffMap.

Lemma act_requests_at_most_one (ignored new : bool) (issue : Issue)
    (ed ec : option Discussion) :
  (length (act_requests proc ignored new diff_map issue ed ec) ≤ 1)%nat.
Proof. unfold act_requests. repeat case_match; simpl; lia. Qed.

Lemma extract_sublist {A} (p : A → bool) (l rest : list A) (found : option A) :
  extract p l = (found, rest) → rest `sublist_of` l.
Proof.
  destruct (extract_spec p l) as [[_ ->]|(l1 & x & l2 & -> & _ & _ & ->)];
    intros [= <- <-]; [done|].
  apply sublist_app; [done|]. by apply sublist_cons.
Qed.

(** The loop over the issues sends create and update requests only, at most
    one for each issue, and keeps the order of the pool. *)
Lemma process_issues_requests (issues : list Issue) (s : State) :
  let s' := process_issues proc world mergeKeyToIssue diff_map issues s in
  review_discussions s' `sublist_of` review_discussions s ∧
  ∃ evs, trace s' = trace s ++ evs ∧
         Forall (λ r, is_write r = true) (requests evs) ∧
         (length (requests evs) ≤ length issues)%nat.
Proof.
  revert s. induction issues as [|issue issues IH]; intros s; cbn zeta.
  - split; [done|]. exists []. rewrite app_nil_r. by repeat split.
  - unfold process_issues. simpl.
    destruct (process_issue_spec proc world mergeKeyToIssue diff_map issue s)
      as (ed & ec & pool1 & pool2 & evs1 & Hed & Hec & Hp & _ & [Ht1 _] & Hreq).
    destruct (IH (process_issue proc world mergeKeyToIssue diff_map issue s))
      as (Hsub & evs2 & Ht2 & Hw2 & Hlen2).
    unfold process_issues in *. split.
    + etrans; [exact Hsub|]. rewrite Hp.
      etrans; [by eapply extract_sublist|by eapply extract_sublist].
    + exists (evs1 ++ evs2). rewrite Ht2, Ht1, app_assoc, requests_app.
      split; [done|]. split.
      * apply Forall_app. split; [|done]. rewrite Hreq.
        apply act_requests_are_writes.
      * rewrite length_app, Hreq.
        pose proof (act_requests_at_most_one (ignoredOnServer mergeKeyToIssue issue)
                      (newOnServer mergeKeyToIssue issue) issue ed ec). simpl. lia.
Qed.

Lemma reconcile_requests (issues : list Issue) (s : State) :
  let s' := reconcile proc world mergeKeyToIssue diff_map issues s in
  review_discussions s' `sublist_of` review_discussions s ∧
  ∃ evs, trace s' = trace s ++ evs ∧
         Forall (λ r, is_write r = true) (requests evs) ∧
         (length (requests evs) ≤ length issues + length (review_discussions s'))%nat.
Proof.
  cbn zeta. unfold reconcile.
  destruct (process_issues_requests issues s) as (Hsub & evs1 & Ht1 & Hw1 & Hlen1).
  set (s1 := process_issues proc world mergeKeyToIssue diff_map issues s) in *.
  destruct (sweep_after proc world s1) as (evs2 & (Hp & _ & Ht2 & _) & Hreq).
  rewrite Hp. split; [done|].
  exists (evs1 ++ evs2). rewrite Ht2, Ht1, app_assoc, requests_app, length_app.
  split; [done|]. split.
  - apply Forall_app. split; [done|]. rewrite Hreq.
    apply Forall_fmap, Forall_forall. by intros d _.
  - rewrite Hreq, length_fmap.
    pose proof (length_filter (λ d, coverityIsPresent (body (root d)) = true)
                  (review_discussions s1)). lia.
Qed.

(** Every update request names a discussion that was in the pool: one spliced
    out for an issue, or one left for the sweep. *)
Lemma reconcile_updates_pool (issues : list Issue) (s : State) :
  updates_claimed s →
  let s' := reconcile proc world mergeKeyToIssue diff_map issues s in
  ∀ r target, r ∈ requests (trace s') → updates target r = true →
    target ∈ update_target <$> (claimed_discussions s ++ review_discussions s).
Proof.
  intros Hs s' r target Hr Hu. subst s'. unfold reconcile in Hr.
  pose proof (process_issues_perm proc world mergeKeyToIssue diff_map issues s) as Hperm.
  pose proof (process_issues_updates_claimed proc world mergeKeyToIssue diff_map
                issues s Hs) as Hinv.
  cbn zeta in Hperm.
  set (s1 := process_issues proc world mergeKeyToIssue diff_map issues s) in *.
  destruct (sweep_after proc world s1) as (evs & (_ & _ & Ht & _) & Hreq).
  rewrite Ht, requests_app, Hreq in Hr. rewrite <-Hperm, fmap_app.
  apply elem_of_app in Hr as [Hr|Hr]; apply elem_of_app.
  - left. by eapply Hinv.
  - right. apply list_elem_of_fmap in Hr as (d & -> & Hd).
    apply list_elem_of_filter in Hd as [_ Hd]. simpl in Hu.
    apply bool_decide_eq_true in Hu. subst target.
    by apply (list_elem_of_fmap_2 update_target).
Qed.

End RequestFacts.



(** X4.  The discussions left in the pool after the reconciliation are
    discussions of the initial pool in their initial order: splicing never
    reorders the pool, so the sweep visits the leftovers in the order of the
    listing. *)
Theorem pool_keeps_listing_order `{Externals} (proc : Process) (world : World)
    (mergeKeyToIssue : gmap string CoverityProjectIssue) (diff_map : DiffMap)
    (issues : list Issue) (pool : list Discussion) :
  review_discussions (reconcile proc world mergeKeyToIssue diff_map issues (start pool))
  `sublist_of` pool.
Proof.
  by destruct (reconcile_requests proc world mergeKeyToIssue diff_map issues (start pool))
    as (Hsub & _).
Qed.

Section WholeRunFacts.
Context `{Externals}.
Variable proc : Process.
Variable world : World.

Lemma preflight_sends_nothing :
  requests (trace (preflight proc initial_state).2) = [] ∧
  claimed (preflight proc initial_state).2 = [].
Proof.
  destruct (quiet_preflight proc (λ _, true) initial_state) as [Hq Hc].
  by rewrite filter_all in Hq.
Qed.

Lemma fetch_writes_nothing (s s1 : State) (r : Step (list Issue * gmap string CoverityProjectIssue * DiffMap)) :
  fetch proc world s = (r, s1) →
  write_requests (trace s1) = write_requests (trace s) ∧ claimed s1 = claimed s.
Proof.
  intros Hf. destruct (quiet_fetch proc world s) as [Hq Hc].
  rewrite Hf in Hq, Hc. done.
Qed.

End WholeRunFacts.

(** X5.  Whatever a run updates is a listed discussion whose first note
    contains the marker: every update request of a run names such a
    discussion by its parsed id and the id of its first note.  Discussions
    without the marker are never rewritten. *)
Theorem only_marked_discussions_are_updated `{Externals} (proc : Process)
    (world : World) (mr : GitlabMR) (discussion_id : option Z) (note : Z)
    (new_body : string) :
  gitlabUpdateNote mr discussion_id note new_body
    ∈ requests (trace (run proc world).2) →
  ∃ listing d first others,
    on_gitlabGetDiscussions world = Resolved listing ∧
    d ∈ listing ∧
    api_notes d = first :: others ∧
    JS.includes (body first) COVERITY_COMMENT_PREFACE = true ∧
    discussion_id = parseInt10 (api_id d) ∧
    note = note_id first.
Proof.
  intros Hr. pose proof (run_cases proc world) as Hrun. cbn zeta in Hrun.
  destruct (preflight_sends_nothing proc) as [Hq0 Hc0].
  destruct (preflight proc initial_state) as [[[]|o] s0]; simpl in *; last first.
  { rewrite Hrun in Hr. simpl in Hr. rewrite Hq0 in Hr. by apply elem_of_nil in Hr. }
  destruct (fetch proc world s0) as [[[[issues m] diff_map]|o] s1] eqn:Hf.
  - destruct (fetch_writes_nothing proc world _ _ _ Hf) as [Hq1 Hc1].
    destruct (fetch_continue proc world _ _ _ _ _ Hf)
      as (_ & (listing & Hlisting & Hpool) & _).
    unfold write_requests in Hq1. rewrite Hq0 in Hq1. simpl in Hq1.
    rewrite Hrun in Hr. simpl in Hr. rewrite requests_app in Hr. simpl in Hr.
    rewrite app_nil_r in Hr.
    assert (updates_claimed s1) as Hinv.
    { intros r target Hin Hu. exfalso.
      assert (r ∈ filter (λ r, is_write r = true) (requests (trace s1))) as Hin'.
      { apply list_elem_of_filter. split; [|done]. by destruct r. }
      rewrite Hq1 in Hin'. by apply elem_of_nil in Hin'. }
    pose proof (reconcile_updates_pool proc world m diff_map issues s1 Hinv _
                  (discussion_id, note) Hr) as Htarget.
    simpl in Htarget. rewrite bool_decide_eq_true_2 in Htarget by done.
    specialize (Htarget eq_refl).
    unfold claimed_discussions in Htarget. rewrite Hc1, Hc0 in Htarget.
    simpl in Htarget.
    apply list_elem_of_fmap in Htarget as (e & Htarget & He).
    destruct (review_filter_elem listing _ e Hpool He) as (a & Ha & Hlisted & Hmarker).
    unfold listed in Hlisted. unfold update_target in Htarget.
    destruct (api_notes a) as [|first others] eqn:Hnotes; simplify_eq/=.
    exists listing, a, first, others. by repeat split.
  - destruct (fetch_writes_nothing proc world _ _ _ Hf) as [Hq1 _].
    unfold write_requests in Hq1. rewrite Hq0 in Hq1. simpl in Hq1.
    rewrite Hrun in Hr. simpl in Hr.
    assert (gitlabUpdateNote mr discussion_id note new_body
              ∈ filter (λ r, is_write r = true) (requests (trace s1))) as Hin
      by (by apply list_elem_of_filter).
    rewrite Hq1 in Hin. by apply elem_of_nil in Hin.
Qed.

(** X6.  A run that ends with a plain return or with an uncaught
    rejection has sent no create or update request and has matched no
    discussion: comments are written only by runs that get through to the
    loop, and those end with [process.exit]. *)
Theorem no_write_without_exit `{Externals} (proc : Process) (world : World) :
  (run proc world).1 = Stop Returned ∨
  (∃ message, (run proc world).1 = Stop (Uncaught message)) →
  write_requests (trace (run proc world).2) = [] ∧ claimed (run proc world).2 = [].
Proof.
  intros Hend. pose proof (run_cases proc world) as Hrun. cbn zeta in Hrun.
  destruct (preflight_sends_nothing proc) as [Hq0 Hc0].
  destruct (preflight proc initial_state) as [[[]|o] s0]; simpl in *; last first.
  { rewrite Hrun. simpl. unfold write_requests. by rewrite Hq0. }
  destruct (fetch proc world s0) as [[[[issues m] diff_map]|o] s1] eqn:Hf.
  - rewrite Hrun in Hend. simpl in Hend. by destruct Hend as [?|[? ?]].
  - destruct (fetch_writes_nothing proc world _ _ _ Hf) as [Hq1 Hc1].
    rewrite Hrun. simpl. rewrite Hq1, Hc1. unfold write_requests. by rewrite Hq0.
Qed.


(** ** Runs that stop early *)

(** X8.  When the Coverity URL or the Coverity project is given neither
    as an option nor in the environment, or one of the six GitLab variables is
    missing or empty, the run ends with exit code 1 and has sent no request
    at all. *)
Theorem incomplete_configuration_exits `{Externals} (proc : Process) (world : World) :
  JS.truthy (coverity_url proc) = false ∨
  JS.truthy (coverity_project_name proc) = false ∨
  (∃ v, v ∈ required_variables ∧ JS.truthy (getenv proc v) = false) →
  (run proc world).1 = Stop (Exit 1) ∧ requests (trace (run proc world).2) = [].
Proof.
  intros Hmissing. pose proof (run_cases proc world) as Hrun. cbn zeta in Hrun.
  pose proof (preflight_outcome proc initial_state) as Hpre.
  destruct (preflight_sends_nothing proc) as [Hq0 _].
  assert ((preflight proc initial_state).1 = Stop (Exit 1)) as Hstop.
  { rewrite Hpre. destruct Hmissing as [->| [->|(v & Hv & Hfalse)]]; [done| |].
    - by destruct (JS.truthy (coverity_url proc)).
    - assert (forallb (λ v, JS.truthy (getenv proc v)) required_variables = false) as ->.
      { apply not_true_iff_false. intros Hall.
        rewrite forallb_forall in Hall.
        rewrite (Hall v) in Hfalse; [done|by apply list_elem_of_In]. }
      by repeat case_match. }
  clear Hpre.
  destruct (preflight proc initial_state) as [r s0]. simpl in *. subst r.
  simpl in Hrun. by rewrite Hrun.
Qed.

(** X9.  With a complete configuration and no merge request id, the run
    is over after the checks without a single request: it returns when the
    commit branch is known and ends with exit code 1 when it is not. *)
Theorem not_a_merge_request_returns `{Externals} (proc : Process) (world : World) :
  JS.truthy (coverity_url proc) = true →
  JS.truthy (coverity_project_name proc) = true →
  (∀ v, v ∈ required_variables → JS.truthy (getenv proc v) = true) →
  is_merge_request proc = false →
  (run proc world).1 =
    Stop (if JS.truthy (getenv proc "CI_COMMIT_BRANCH") then Returned else Exit 1) ∧
  requests (trace (run proc world).2) = [].
Proof.
  intros Hurl Hproject Hvars Hmr.
  pose proof (run_cases proc world) as Hrun. cbn zeta in Hrun.
  pose proof (preflight_outcome proc initial_state) as Hpre.
  destruct (preflight_sends_nothing proc) as [Hq0 _].
  assert (forallb (λ v, JS.truthy (getenv proc v)) required_variables = true) as Hall.
  { apply forallb_forall. intros v Hv. by apply Hvars, list_elem_of_In. }
  rewrite Hurl, Hproject, Hmr, Hall in Hpre. simpl in Hpre.
  destruct (preflight proc initial_state) as [r s0]. simpl in *. subst r.
  destruct (JS.truthy (getenv proc "CI_COMMIT_BRANCH")); simpl in Hrun; by rewrite Hrun.
Qed.

(** ** Runs without Coverity connection info *)

Section Degraded.
Context `{Externals}.
Variable proc : Process.
Hypothesis cannot_check : canCheckCoverity proc = false.

Lemma lookup_merge_keys_degraded (w : World) (issues : list Issue) (s : State) :
  lookup_merge_keys proc w issues s =
    (Continue ∅,
     logger warn
       "Missing Coverity Connect info. Issues will not be checked against the server." s).
Proof. unfold lookup_merge_keys. by rewrite cannot_check. Qed.

Lemma fetch_degraded (world : World) (s : State) :
  (∀ answer, fetch proc (with_lookup world answer) s = fetch proc world s) ∧
  filter (λ r, is_lookup r = true) (requests (trace (fetch proc world s).2))
  = filter (λ r, is_lookup r = true) (requests (trace s)) ∧
  ∀ issues m diff_map s1, fetch proc world s = (Continue (issues, m, diff_map), s1) →
    m = ∅.
Proof.
  unfold fetch, mbind, Prog_bind, mret, Prog_ret, await, effect.
  cbn [on_gitlabGetProject on_readResults on_gitlabGetDiscussions on_gitlabGetDiffMap
       with_lookup].
  destruct (on_gitlabGetProject world); simpl;
    [destruct (on_readResults world (coverity_results_file proc)); simpl;
     [setoid_rewrite lookup_merge_keys_degraded;
      destruct (match on_gitlabGetDiscussions world with
                | Resolved discussions => review_filter discussions
                | Rejected message => Rejected message
                end); simpl;
      [destruct (on_gitlabGetDiffMap world); simpl|]|]|].
  all: split; [done|]; split; [|intros; by simplify_eq].
  all: rewrite <-?app_assoc, requests_app, filter_app; simpl; by rewrite app_nil_r.
Qed.

End Degraded.

(** X10.  When the Coverity user or passphrase is missing, the run never
    asks the Coverity server, does not depend on what it would answer, and
    hands the empty mapping to the loop: every issue is processed as unknown
    to the server. *)
Theorem degraded_mode_skips_lookup `{Externals} (proc : Process) (world : World) :
  canCheckCoverity proc = false →
  filter (λ r, is_lookup r = true) (requests (trace (run proc world).2)) = [] ∧
  (∀ answer, run proc (with_lookup world answer) = run proc world) ∧
  (∀ s issues m diff_map s1,
     fetch proc world s = (Continue (issues, m, diff_map), s1) → m = ∅).
Proof.
  intros Hcan. split; [|split].
  - pose proof (run_cases proc world) as Hrun. cbn zeta in Hrun.
    destruct (preflight_sends_nothing proc) as [Hq0 _].
    destruct (preflight proc initial_state) as [[[]|o] s0]; simpl in *; last first.
    { rewrite Hrun. simpl. by rewrite Hq0. }
    destruct (fetch_degraded proc Hcan world s0) as (_ & Hq1 & _).
    rewrite Hq0 in Hq1. simpl in Hq1.
    destruct (fetch proc world s0) as [[[[issues m] diff_map]|o] s1]; simpl in Hq1;
      rewrite Hrun; simpl; [|done].
    destruct (reconcile_requests proc world m diff_map issues s1)
      as (_ & evs & -> & Hw & _).
    rewrite <-app_assoc, requests_app, filter_app, Hq1, requests_app, filter_app.
    simpl. rewrite app_nil_r. apply filter_none. intros r Hr Hlookup.
    rewrite Forall_forall in Hw. specialize (Hw r Hr). by destruct r.
  - intros answer. unfold run, main, main_after_preflight, mbind, Prog_bind.
    destruct (preflight proc initial_state) as [[[]|o] s0]; [|done].
    destruct (fetch_degraded proc Hcan world s0) as (-> & _). done.
  - intros s issues m diff_map s1 Hf.
    by destruct (fetch_degraded proc Hcan world s) as (_ & _ & Hm); eapply Hm.
Qed.

(** ** Matching by substring *)

Section Substrings.

Lemma append_cons (a : Ascii.ascii) (s t : string) :
  String a s +:+ t = String a (s +:+ t).
Proof. done. Qed.

Lemma append_assoc (s t u : string) : (s +:+ t) +:+ u = s +:+ (t +:+ u).
Proof. induction s as [|a s IH]; [done|]. by rewrite !append_cons, IH. Qed.

Lemma startsWith_append (p post : string) : JS.startsWith (p +:+ post) p = true.
Proof.
  induction p as [|a p IH]; [by destruct post|].
  rewrite append_cons. simpl. by rewrite Ascii.eqb_refl.
Qed.

Lemma startsWith_inv (s p : string) :
  JS.startsWith s p = true → ∃ post, s = p +:+ post.
Proof.
  revert s. induction p as [|b p IH]; intros s Hs; [by exists s|].
  destruct s as [|a s]; [done|]. simpl in Hs.
  destruct (Ascii.eqb a b) eqn:Hab; [|done].
  apply Ascii.eqb_eq in Hab as ->. destruct (IH s Hs) as [post ->]. by exists post.
Qed.

Lemma includes_unfold (s needle : string) :
  JS.includes s needle =
    JS.startsWith s needle ||
    match s with EmptyString => false | String _ s' => JS.includes s' needle end.
Proof. by destruct s. Qed.

Lemma includes_append (before needle after : string) :
  JS.includes (before +:+ needle +:+ after) needle = true.
Proof.
  induction before as [|a before IH].
  - change (EmptyString +:+ needle +:+ after) with (needle +:+ after).
    by rewrite includes_unfold, startsWith_append.
  - rewrite append_cons, includes_unfold, IH. apply orb_true_r.
Qed.

Lemma includes_inv (s needle : string) :
  JS.includes s needle = true → ∃ before after, s = before +:+ needle +:+ after.
Proof.
  induction s as [|a s IH]; rewrite includes_unfold; intros [Hs|Hs]%orb_true_iff.
  - apply startsWith_inv in Hs as [after ->]. by exists EmptyString, after.
  - done.
  - apply startsWith_inv in Hs as [after ->]. by exists EmptyString, after.
  - destruct (IH Hs) as (before & after & ->). by exists (String a before), after.
Qed.

Lemma includes_trans (s middle needle : string) :
  JS.includes s middle = true → JS.includes middle needle = true →
  JS.includes s needle = true.
Proof.
  intros (b1 & a1 & ->)%includes_inv (b2 & a2 & ->)%includes_inv.
  replace (b1 +:+ (b2 +:+ needle +:+ a2) +:+ a1)
    with ((b1 +:+ b2) +:+ needle +:+ (a2 +:+ a1))
    by (by rewrite !append_assoc).
  apply includes_append.
Qed.

End Substrings.

(** X11.  Discussions are matched to issues by substring.  An issue whose
    merge key occurs inside the merge key of another issue therefore matches
    every discussion that mentions the other issue, as an unpositioned match
    and, when it is on the same line, as a positioned match as well. *)
Theorem contained_key_matches_too (shorter longer : Issue) (d : Discussion) :
  JS.includes (mergeKey longer) (mergeKey shorter) = true →
  (comment_match longer d = true → comment_match shorter d = true) ∧
  (mainEventLineNumber shorter = mainEventLineNumber longer →
   positioned_match longer d = true → positioned_match shorter d = true).
Proof.
  intros Hkeys. unfold positioned_match, comment_match. split.
  - intros Hd. by eapply includes_trans.
  - intros -> [Hline Hd]%andb_true_iff. rewrite Hline. simpl.
    by eapply includes_trans.
Qed.

(** X12.  When the pool holds a positioned match for an issue and every
    positioned match holds the review message of the issue already, processing
    the issue sends no request: an unchanged positioned comment is left
    alone. *)
Theorem unchanged_positioned_comment_is_kept `{Externals} (proc : Process)
    (world : World) (mergeKeyToIssue : gmap string CoverityProjectIssue)
    (diff_map : DiffMap) (issue : Issue) (s : State) (d : Discussion) :
  d ∈ review_discussions s →
  positioned_match issue d = true →
  (∀ e, e ∈ review_discussions s → positioned_match issue e = true →
        body (root e) = reviewCommentBody issue) →
  requests (trace (process_issue proc world mergeKeyToIssue diff_map issue s))
  = requests (trace s).
Proof.
  intros Hd Hmatch Hsame.
  destruct (process_issue_spec proc world mergeKeyToIssue diff_map issue s)
    as (ed & ec & pool1 & pool2 & evs & Hed & _ & _ & _ & [Ht _] & Hreq).
  rewrite Ht, requests_app, Hreq.
  destruct ed as [chosen|]; last first.
  { apply extract_none_inv in Hed as [_ Hall].
    rewrite Forall_forall in Hall. by rewrite (Hall _ Hd) in Hmatch. }
  apply extract_some_inv in Hed as (before & after & Hpool & _ & Hchosen & _).
  unfold act_requests. rewrite (Hsame chosen), String.eqb_refl, app_nil_r; [done| |done].
  rewrite Hpool. apply elem_of_app. right. by left.
Qed.

(** * Properties of the Black Duck program *)

Section DetectProgFacts.
Variable P : Detect.Request → bool.

Lemma detect_requests_app (t1 t2 : list Detect.Event) :
  Detect.requests (t1 ++ t2) = Detect.requests t1 ++ Detect.requests t2.
Proof. unfold Detect.requests. apply omap_app. Qed.

Lemma detect_quiet_ret {A} (a : A) : Detect.quiet P (mret a).
Proof. by intros t. Qed.

Lemma detect_quiet_bind {A B} (m : Detect.Prog A) (f : A → Detect.Prog B) :
  Detect.quiet P m → (∀ a, Detect.quiet P (f a)) → Detect.quiet P (m ≫= f).
Proof.
  intros Hm Hf t. unfold mbind, Detect.Prog_bind.
  specialize (Hm t). destruct (m t) as [[a|o] t1]; simpl in *; [|done].
  by rewrite (Hf a t1).
Qed.

Lemma detect_quiet_finish {A} (o : Outcome) : Detect.quiet P (@Detect.finish A o).
Proof. by intros t. Qed.

Lemma detect_quiet_exit {A} (code : Z) : Detect.quiet P (@Detect.process_exit A code).
Proof. by intros t. Qed.

Lemma detect_quiet_when (b : bool) (m : Detect.Prog unit) :
  Detect.quiet P m → Detect.quiet P (Detect.when b m).
Proof. intros Hm. destruct b; [done|]. apply detect_quiet_ret. Qed.

Lemma detect_quiet_logger (l : Level) (message : string) :
  Detect.quiet P (Detect.logger l message).
Proof. intros t. simpl. rewrite detect_requests_app. simpl. by rewrite app_nil_r. Qed.

Lemma detect_quiet_send (r : Detect.Request) :
  P r = false → Detect.quiet P (Detect.send r).
Proof.
  intros Hr t. simpl. rewrite detect_requests_app, filter_app. simpl.
  rewrite filter_cons, decide_False by congruence. by rewrite app_nil_r.
Qed.

Lemma detect_quiet_await {A} (r : Detect.Request) (answer : Promise A) :
  P r = false → Detect.quiet P (Detect.await r answer).
Proof.
  intros Hr. unfold Detect.await. apply detect_quiet_bind; [by apply detect_quiet_send|].
  intros _. destruct answer; [apply detect_quiet_ret|apply detect_quiet_finish].
Qed.

Lemma detect_quiet_await_or_exit {A} (r : Detect.Request) (answer : Promise A)
    (handler : string → string) :
  P r = false → Detect.quiet P (Detect.await_or_exit r answer handler).
Proof.
  intros Hr. unfold Detect.await_or_exit.
  apply detect_quiet_bind; [by apply detect_quiet_send|].
  intros _. destruct answer; [apply detect_quiet_ret|].
  apply detect_quiet_bind; [apply detect_quiet_logger|]. intros _. apply detect_quiet_exit.
Qed.

Lemma detect_quiet_await_write (r : Detect.Request) (fate : option string) :
  P r = false → Detect.quiet P (Detect.await_write r fate).
Proof.
  intros Hr. unfold Detect.await_write.
  apply detect_quiet_bind; [by apply detect_quiet_send|].
  intros _. destruct fate; [apply detect_quiet_finish|apply detect_quiet_ret].
Qed.

End DetectProgFacts.

Ltac detect_quiet_step :=
  first
    [ apply detect_quiet_bind; [|intros ?]
    | apply detect_quiet_when
    | apply detect_quiet_logger
    | apply detect_quiet_send; done
    | apply detect_quiet_await; done
    | apply detect_quiet_await_or_exit; done
    | apply detect_quiet_await_write; done
    | apply detect_quiet_exit
    | apply detect_quiet_finish
    | apply detect_quiet_ret
    | match goal with
      | |- Detect.quiet _ (if ?b then _ else _) => destruct b
      | |- Detect.quiet _ (match ?x with _ => _ end) => destruct x
      end ].

Section DetectStages.
Context `{Detect.Externals}.
Variable proc : Detect.Process.
Variable world : Detect.World.

Lemma detect_quiet_preflight (P : Detect.Request → bool) :
  Detect.quiet P (Detect.preflight proc).
Proof. unfold Detect.preflight. repeat detect_quiet_step. Qed.

Lemma detect_quiet_policy_check (P : Detect.Request → bool) :
  (∀ a b, P (Detect.getBearerToken a b) = false) →
  (∀ a b c, P (Detect.checkIfEnabledBlackduckPoliciesExist a b c) = false) →
  Detect.quiet P (Detect.policy_check proc world).
Proof. intros H1 H2. unfold Detect.policy_check. repeat detect_quiet_step. Qed.

Lemma detect_quiet_detect (P : Detect.Request → bool) :
  (∀ a, P (Detect.findOrDownloadDetect a) = false) →
  (∀ a b, P (Detect.runDetect a b) = false) →
  Detect.quiet P (Detect.detect proc world).
Proof. intros H1 H2. unfold Detect.detect. repeat detect_quiet_step. Qed.

Lemma detect_quiet_diagnostics (P : Detect.Request → bool) :
  (∀ a, P (Detect.diagnosticGlobber a) = false) →
  (∀ a b, P (Detect.copyFile a b) = false) →
  Detect.quiet P (Detect.diagnostics proc world).
Proof. intros H1 H2. unfold Detect.diagnostics. repeat detect_quiet_step. Qed.

Lemma detect_quiet_summary (P : Detect.Request → bool) (has : bool) (code : Z) :
  Detect.quiet P (Detect.summary has code).
Proof. unfold Detect.summary. repeat detect_quiet_step. Qed.

Lemma detect_quiet_copy_callback (P : Detect.Request → bool) (err : option string) :
  Detect.quiet P (Detect.copy_callback err).
Proof. unfold Detect.copy_callback. repeat detect_quiet_step. Qed.

End DetectStages.

Section DetectStops.
Variable Q : Outcome → Prop.

Lemma stops_ret {A} (a : A) : Detect.stops_within Q (mret a).
Proof. by intros t o. Qed.

Lemma stops_bind {A B} (m : Detect.Prog A) (f : A → Detect.Prog B) :
  Detect.stops_within Q m → (∀ a, Detect.stops_within Q (f a)) →
  Detect.stops_within Q (m ≫= f).
Proof.
  intros Hm Hf t o. unfold mbind, Detect.Prog_bind.
  specialize (Hm t). destruct (m t) as [[a|o'] t1]; simpl in *; [apply Hf|].
  intros [= <-]. by apply Hm.
Qed.

Lemma stops_logger (l : Level) (message : string) :
  Detect.stops_within Q (Detect.logger l message).
Proof. by intros t o. Qed.

Lemma stops_send (r : Detect.Request) : Detect.stops_within Q (Detect.send r).
Proof. by intros t o. Qed.

Lemma stops_finish {A} (o : Outcome) : Q o → Detect.stops_within Q (@Detect.finish A o).
Proof. intros Ho t o' [= <-]. done. Qed.

Lemma stops_exit {A} (code : Z) :
  Q (Exit code) → Detect.stops_within Q (@Detect.process_exit A code).
Proof. apply stops_finish. Qed.

Lemma stops_when (b : bool) (m : Detect.Prog unit) :
  Detect.stops_within Q m → Detect.stops_within Q (Detect.when b m).
Proof. intros Hm. destruct b; [done|]. apply stops_ret. Qed.

Lemma stops_await {A} (r : Detect.Request) (answer : Promise A) :
  (∀ message, Q (Uncaught message)) → Detect.stops_within Q (Detect.await r answer).
Proof.
  intros HQ. unfold Detect.await. apply stops_bind; [apply stops_send|].
  intros _. destruct answer; [apply stops_ret|by apply stops_finish].
Qed.

Lemma stops_await_or_exit {A} (r : Detect.Request) (answer : Promise A)
    (handler : string → string) :
  Q (Exit 1) → Detect.stops_within Q (Detect.await_or_exit r answer handler).
Proof.
  intros HQ. unfold Detect.await_or_exit. apply stops_bind; [apply stops_send|].
  intros _. destruct answer; [apply stops_ret|].
  apply stops_bind; [apply stops_logger|]. intros _. by apply stops_exit.
Qed.

Lemma stops_await_write (r : Detect.Request) (fate : option string) :
  (∀ message, Q (Uncaught message)) →
  Detect.stops_within Q (Detect.await_write r fate).
Proof.
  intros HQ. unfold Detect.await_write. apply stops_bind; [apply stops_send|].
  intros _. destruct fate; [by apply stops_finish|apply stops_ret].
Qed.

End DetectStops.

Ltac stops_step :=
  first
    [ apply stops_bind; [|intros ?]
    | apply stops_when
    | apply stops_logger
    | apply stops_send
    | apply stops_await; done
    | apply stops_await_or_exit; done
    | apply stops_await_write; done
    | apply stops_exit; done
    | apply stops_finish; done
    | apply stops_ret
    | match goal with
      | |- Detect.stops_within _ (if ?b then _ else _) => destruct b
      | |- Detect.stops_within _ (match ?x with _ => _ end) => destruct x
      end ].

Section DetectOutcomes.
Context `{Detect.Externals}.
Variable proc : Detect.Process.
Variable world : Detect.World.

(** Up to the end of Detect, the only exit code is 1. *)
Lemma preflight_exit_1 : Detect.stops_within Detect.exit_1_only (Detect.preflight proc).
Proof. unfold Detect.preflight. repeat stops_step. Qed.

Lemma policy_check_exit_1 :
  Detect.stops_within Detect.exit_1_only (Detect.policy_check proc world).
Proof. unfold Detect.policy_check. repeat stops_step. Qed.

Lemma detect_exit_1 : Detect.stops_within Detect.exit_1_only (Detect.detect proc world).
Proof. unfold Detect.detect. repeat stops_step. Qed.

(** After Detect, nothing calls [process.exit]. *)
Lemma comment_no_exit (rapidScanReport : string) :
  Detect.stops_within Detect.no_exit (Detect.comment proc world rapidScanReport).
Proof. unfold Detect.comment. repeat stops_step. Qed.

Lemma report_no_exit (code : Z) :
  Detect.stops_within Detect.no_exit (Detect.report proc world code).
Proof.
  unfold Detect.report. repeat stops_step; apply comment_no_exit.
Qed.

Lemma after_detect_no_exit (code : Z) :
  Detect.stops_within Detect.no_exit (Detect.after_detect proc world code).
Proof.
  unfold Detect.after_detect, Detect.diagnostics, Detect.summary, Detect.copy_callback.
  repeat stops_step; apply report_no_exit.
Qed.

End DetectOutcomes.

Section DetectWrites.

Lemma writes_from_quiet {A} (m : Detect.Prog A) :
  Detect.quiet Detect.is_write m → Detect.writes_at_most 0 m.
Proof. intros Hm t. rewrite (Hm t). lia. Qed.

Lemma writes_bind {A B} (a b : nat) (m : Detect.Prog A) (f : A → Detect.Prog B) :
  Detect.writes_at_most a m → (∀ x, Detect.writes_at_most b (f x)) →
  Detect.writes_at_most (a + b) (m ≫= f).
Proof.
  intros Hm Hf t. unfold mbind, Detect.Prog_bind.
  specialize (Hm t). destruct (m t) as [[x|o] t1]; simpl in *; [|lia].
  specialize (Hf x t1). lia.
Qed.

Lemma writes_await_write (r : Detect.Request) (fate : option string) :
  Detect.writes_at_most 1 (Detect.await_write r fate).
Proof.
  intros t. unfold Detect.await_write, mbind, Detect.Prog_bind, Detect.send.
  assert (length (filter (λ r, Detect.is_write r = true)
                    (Detect.requests (t ++ [Detect.Send r])))
          ≤ length (filter (λ r, Detect.is_write r = true) (Detect.requests t)) + 1)%nat.
  { rewrite detect_requests_app, filter_app, length_app. simpl.
    rewrite filter_cons. case_decide; simpl; lia. }
  by destruct fate.
Qed.

End DetectWrites.

Section DetectRunFacts.
Context `{Detect.Externals}.
Variable proc : Detect.Process.
Variable world : Detect.World.

Lemma comment_writes_once (rapidScanReport : string) :
  Detect.writes_at_most 1 (Detect.comment proc world rapidScanReport).
Proof.
  unfold Detect.comment.
  apply (writes_bind 0 1); [apply writes_from_quiet, detect_quiet_logger|]. intros _.
  apply (writes_bind 0 1); [by apply writes_from_quiet, detect_quiet_await|].
  intros review_discussions.
  apply (writes_bind 1 0); [|intros; apply writes_from_quiet, detect_quiet_logger].
  destruct review_discussions as [|first rest];
    (apply (writes_bind 0 1); [apply writes_from_quiet, detect_quiet_logger|]);
    intros _; apply writes_await_write.
Qed.

Lemma report_writes_once (code : Z) :
  Detect.writes_at_most 1 (Detect.report proc world code).
Proof.
  unfold Detect.report.
  apply (writes_bind 0 1); [apply writes_from_quiet, detect_quiet_logger|]. intros _.
  apply (writes_bind 0 1); [by apply writes_from_quiet, detect_quiet_await|].
  intros paths.
  apply (writes_bind 0 1).
  { apply writes_from_quiet. destruct paths; [apply detect_quiet_finish|].
    by apply detect_quiet_await. }
  intros violations.
  apply (writes_bind 0 1); [apply writes_from_quiet, detect_quiet_logger|]. intros _.
  apply (writes_bind 0 1); [by apply writes_from_quiet, detect_quiet_await|].
  intros rapidScanReport.
  apply (writes_bind 1 0).
  { destruct (Detect.is_merge_request proc); simpl; [apply comment_writes_once|].
    intros t. simpl. lia. }
  intros _. apply writes_from_quiet. repeat detect_quiet_step.
Qed.

Lemma main_writes_once : Detect.writes_at_most 1 (Detect.main proc world).
Proof.
  unfold Detect.main.
  apply (writes_bind 0 1); [apply writes_from_quiet, detect_quiet_preflight|]. intros _.
  apply (writes_bind 0 1).
  { apply writes_from_quiet, detect_quiet_when. by apply detect_quiet_policy_check. }
  intros _.
  apply (writes_bind 0 1); [by apply writes_from_quiet, detect_quiet_detect|].
  intros code. unfold Detect.after_detect.
  apply (writes_bind 1 0).
  { destruct (Detect.is_rapid proc); [apply report_writes_once|].
    apply (writes_bind 0 1); [apply writes_from_quiet, detect_quiet_logger|].
    intros _ t. simpl. lia. }
  intros has. apply writes_from_quiet.
  apply detect_quiet_bind; [by apply detect_quiet_diagnostics|]. intros err.
  apply detect_quiet_bind; [apply detect_quiet_summary|]. intros _.
  apply detect_quiet_bind; [apply detect_quiet_copy_callback|]. intros _.
  apply detect_quiet_finish.
Qed.

(** A run is [preflight], the policy check of a rapid scan, [detect] and
    what follows it, and stops where the first of them stops. *)
Lemma detect_run_cases :
  match Detect.preflight proc [] with
  | (Stop o, t0) => Detect.run proc world = (Stop o, t0)
  | (Continue _, t0) =>
      match Detect.when (Detect.is_rapid proc) (Detect.policy_check proc world) t0 with
      | (Stop o, t1) => Detect.run proc world = (Stop o, t1)
      | (Continue _, t1) =>
          match Detect.detect proc world t1 with
          | (Stop o, t2) => Detect.run proc world = (Stop o, t2)
          | (Continue code, t2) =>
              Detect.run proc world = Detect.after_detect proc world code t2
          end
      end
  end.
Proof.
  unfold Detect.run, Detect.main, mbind, Detect.Prog_bind.
  destruct (Detect.preflight proc []) as [[[]|o] t0]; [|done].
  destruct (Detect.when _ _ t0) as [[[]|o] t1]; [|done].
  by destruct (Detect.detect proc world t1) as [[code|o] t2].
Qed.

End DetectRunFacts.

Lemma filter_negb_nil {A} (f : A → bool) (l : list A) :
  filter (λ x, negb (f x) = true) l = [] → Forall (λ x, f x = true) l.
Proof.
  intros Hnil. apply Forall_forall. intros x Hx.
  destruct (f x) eqn:Hfx; [done|].
  assert (x ∈ filter (λ x, negb (f x) = true) l) as Hin.
  { apply list_elem_of_filter. by rewrite Hfx. }
  rewrite Hnil in Hin. by apply elem_of_nil in Hin.
Qed.

(** X13.  The Black Duck program calls [process.exit] with code 1 only,
    and only before the report: a run that ends with an exit code has code 1
    and has sent nothing but the requests of the policy check and of Detect
    itself, so no file was read, no report made and GitLab not contacted. *)
Theorem detect_exit_is_early `{Detect.Externals} (proc : Detect.Process)
    (world : Detect.World) (code : Z) :
  (Detect.run proc world).1 = Stop (Exit code) →
  code = 1 ∧
  Forall (λ r, Detect.is_before_report r = true)
    (Detect.requests (Detect.run proc world).2).
Proof.
  intros Hexit. pose proof (detect_run_cases proc world) as Hrun.
  set (P := λ r, negb (Detect.is_before_report r)).
  pose proof (detect_quiet_preflight proc P []) as Hq0.
  pose proof (preflight_exit_1 proc []) as He0.
  destruct (Detect.preflight proc []) as [[[]|o] t0]; simpl in *.
  2: { rewrite Hrun in Hexit |- *. simpl in *. injection Hexit as ->.
       split; [by apply (He0 _ eq_refl)|]. by apply filter_negb_nil. }
  assert (Detect.quiet P (Detect.when (Detect.is_rapid proc)
                            (Detect.policy_check proc world))) as Hq1
    by (by apply detect_quiet_when, detect_quiet_policy_check).
  assert (Detect.stops_within Detect.exit_1_only
            (Detect.when (Detect.is_rapid proc) (Detect.policy_check proc world)))
    as He1 by apply stops_when, policy_check_exit_1.
  specialize (Hq1 t0). specialize (He1 t0). rewrite Hq0 in Hq1.
  destruct (Detect.when _ _ t0) as [[[]|o] t1]; simpl in *.
  2: { rewrite Hrun in Hexit |- *. simpl in *. injection Hexit as ->.
       split; [by apply (He1 _ eq_refl)|]. by apply filter_negb_nil. }
  assert (Detect.quiet P (Detect.detect proc world)) as Hq2
    by (by apply detect_quiet_detect).
  specialize (Hq2 t1). rewrite Hq1 in Hq2.
  pose proof (detect_exit_1 proc world t1) as He2.
  destruct (Detect.detect proc world t1) as [[detectExitCode|o] t2]; simpl in *.
  2: { rewrite Hrun in Hexit |- *. simpl in *. injection Hexit as ->.
       split; [by apply (He2 _ eq_refl)|]. by apply filter_negb_nil. }
  rewrite Hrun in Hexit.
  by destruct (after_detect_no_exit proc world detectExitCode t2 _ Hexit).
Qed.

(** X14.  Once Detect has been run successfully, the rest of the program
    never calls [process.exit]: whatever the exit code of Detect, whatever
    the scan found and whatever flags are set, it ends by returning from
    [main] or with an uncaught rejection.  Policy violations are logged, not
    turned into an exit code. *)
Theorem after_detect_returns_or_throws `{Detect.Externals} (proc : Detect.Process)
    (world : Detect.World) (detectExitCode : Z) (t : list Detect.Event) :
  (Detect.after_detect proc world detectExitCode t).1 = Stop Returned ∨
  ∃ reason, (Detect.after_detect proc world detectExitCode t).1 = Stop (Uncaught reason).
Proof.
  pose proof (after_detect_no_exit proc world detectExitCode t) as Hno.
  assert (∀ u, (Detect.after_detect proc world detectExitCode t).1 ≠ Continue u) as Hstop.
  { unfold Detect.after_detect, mbind, Detect.Prog_bind. intros u.
    repeat (match goal with
            | |- context [match ?m with (_, _) => _ end] =>
                destruct m as [[?|?] ?]
            end; simpl); done. }
  destruct (Detect.after_detect proc world detectExitCode t) as [[u|o] t']; simpl in *.
  - by destruct (Hstop u).
  - specialize (Hno o eq_refl). destruct o; [done|by left|right; eauto].
Qed.

(** X15.  In a scan that is not rapid, the program asks nothing of the
    Black Duck server and nothing of GitLab and reads no scan result: all its
    requests are the download and the run of Detect and the copy of the
    diagnostic logs. *)
Theorem other_modes_stay_local `{Detect.Externals} (proc : Detect.Process)
    (world : Detect.World) :
  Detect.SCAN_MODE proc ≠ "RAPID" →
  Forall (λ r, Detect.is_local r = true) (Detect.requests (Detect.run proc world).2).
Proof.
  intros Hmode. apply filter_negb_nil.
  assert (Detect.is_rapid proc = false) as Hrapid by (by apply String.eqb_neq).
  set (P := λ r, negb (Detect.is_local r)).
  assert (Detect.quiet P (Detect.main proc world)) as Hq; [|exact (Hq [])].
  unfold Detect.main, Detect.after_detect. rewrite Hrapid.
  apply detect_quiet_bind; [apply detect_quiet_preflight|]. intros _.
  apply detect_quiet_bind; [apply detect_quiet_ret|]. intros _.
  apply detect_quiet_bind; [by apply detect_quiet_detect|]. intros code.
  apply detect_quiet_bind; [repeat detect_quiet_step|]. intros has.
  apply detect_quiet_bind; [by apply detect_quiet_diagnostics|]. intros err.
  apply detect_quiet_bind; [apply detect_quiet_summary|]. intros _.
  apply detect_quiet_bind; [apply detect_quiet_copy_callback|]. intros _.
  apply detect_quiet_finish.
Qed.

(** X16.  A run of the Black Duck program writes to the merge request at
    most once: it sends at most one update or create request. *)
Theorem detect_writes_at_most_once `{Detect.Externals} (proc : Detect.Process)
    (world : Detect.World) :
  (length (filter (λ r, Detect.is_write r = true)
             (Detect.requests (Detect.run proc world).2)) ≤ 1)%nat.
Proof. apply (main_writes_once proc world []). Qed.

Section DetectComment.
Context `{Detect.Externals}.

Lemma detect_review_filter_resolved (ds : list ApiDiscussion) :
  Forall (λ d, api_notes d ≠ []) ds →
  Detect.review_filter ds =
    Resolved (filter (λ d, JS.includes (body (root d)) Detect.COMMENT_PREFACE = true)
                (omap listed ds)).
Proof.
  induction 1 as [|d ds Hd _ IH]; [done|].
  simpl. unfold listed at 1. destruct (api_notes d) as [|note notes]; [done|].
  rewrite IH, filter_cons. simpl.
  destruct (JS.includes (body note) Detect.COMMENT_PREFACE); by case_decide.
Qed.

(** What the program writes holds the marker it looks for. *)
Lemma message_has_marker (rapidScanReport : string) :
  JS.includes (Detect.message rapidScanReport) Detect.COMMENT_PREFACE = true.
Proof.
  unfold Detect.message.
  change (Detect.COMMENT_PREFACE +:+ Detect.CRLF +:+ rapidScanReport)
    with (EmptyString +:+ Detect.COMMENT_PREFACE +:+ (Detect.CRLF +:+ rapidScanReport)).
  apply includes_append.
Qed.

End DetectComment.

(** X17.  A comment written by the program is found again.  When the
    listing of the merge request holds a discussion whose first note is a
    message of the program, for whatever report, commenting creates nothing:
    its only write is the update of the first listed discussion that holds
    the marker, with the new message. *)
Theorem managed_comment_is_updated `{Detect.Externals} (proc : Detect.Process)
    (world : Detect.World) (rapidScanReport earlier : string)
    (t : list Detect.Event) (listing : list ApiDiscussion) (d : ApiDiscussion)
    (note : Note) (notes : list Note) :
  Detect.on_gitlabGetDiscussions world = Resolved listing →
  Forall (λ d, api_notes d ≠ []) listing →
  d ∈ listing →
  api_notes d = note :: notes →
  body note = Detect.message earlier →
  ∃ first rest,
    Detect.review_filter listing = Resolved (first :: rest) ∧
    JS.includes (body (root first)) Detect.COMMENT_PREFACE = true ∧
    Detect.requests (Detect.comment proc world rapidScanReport t).2 =
      Detect.requests t ++
      [ Detect.gitlabGetDiscussions (Detect.gitlab proc);
        Detect.gitlabUpdateNote (Detect.gitlab proc) (Detect.parseInt10 (id first))
          (note_id (root first)) (Detect.message rapidScanReport) ].
Proof.
  intros Hlisting Hnotes Hd Hnote Hbody.
  pose proof (detect_review_filter_resolved listing Hnotes) as Hpool.
  set (pool := filter _ _) in Hpool.
  assert ({| id := api_id d; root := note; replies := notes |} ∈ pool) as Hin.
  { apply list_elem_of_filter. split.
    - simpl. rewrite Hbody. apply message_has_marker.
    - apply list_elem_of_omap. exists d. split; [done|]. unfold listed. by rewrite Hnote. }
  destruct pool as [|first rest] eqn:Hfirst; [by apply elem_of_nil in Hin|].
  exists first, rest. split; [done|]. split.
  - assert (first ∈ pool) as Hfirst_in by (rewrite Hfirst; left).
    subst pool. by apply list_elem_of_filter in Hfirst_in as [? _].
  - unfold Detect.comment, Detect.await, Detect.await_write, mbind, Detect.Prog_bind,
      Detect.send, Detect.logger, Detect.finish, mret, Detect.Prog_ret.
    rewrite Hlisting, Hpool. simpl.
    destruct (Detect.on_gitlabUpdateNote world); simpl;
      rewrite <-?app_assoc, detect_requests_app; simpl; done.
Qed.

(** X18.  In a rapid scan, when the Black Duck server has no enabled
    policy, or cannot say whether it has, the run ends with exit code 1
    before Detect is downloaded or run: the token and the policy check are
    its only requests. *)
Theorem no_enabled_policy_aborts `{Detect.Externals} (proc : Detect.Process)
    (world : Detect.World) (bearer : string) :
  (Detect.preflight proc []).1 = Continue tt →
  Detect.is_rapid proc = true →
  Detect.on_getBearerToken world = Resolved bearer →
  Detect.on_checkIfEnabledBlackduckPoliciesExist world bearer = Resolved false ∨
  (∃ reason, Detect.on_checkIfEnabledBlackduckPoliciesExist world bearer
             = Rejected reason) →
  (Detect.run proc world).1 = Stop (Exit 1) ∧
  Detect.requests (Detect.run proc world).2 =
    [ Detect.getBearerToken (Detect.BLACKDUCK_URL proc) (Detect.BLACKDUCK_API_TOKEN proc);
      Detect.checkIfEnabledBlackduckPoliciesExist (Detect.BLACKDUCK_URL proc)
        (Detect.BLACKDUCK_API_TOKEN proc) bearer ].
Proof.
  intros Hpre Hrapid Hbearer Hcheck.
  pose proof (detect_run_cases proc world) as Hrun.
  pose proof (detect_quiet_preflight proc (λ _, true) []) as Hq0.
  rewrite filter_all in Hq0. simpl in Hq0.
  destruct (Detect.preflight proc []) as [[[]|o] t0]; [|done]. simpl in Hq0.
  rewrite Hrapid in Hrun. simpl in Hrun.
  unfold Detect.policy_check, Detect.await, mbind, Detect.Prog_bind, Detect.send,
    Detect.logger, Detect.process_exit, Detect.finish, mret, Detect.Prog_ret in Hrun.
  rewrite Hbearer in Hrun. simpl in Hrun.
  destruct Hcheck as [Hcheck|[reason Hcheck]]; rewrite Hcheck in Hrun; simpl in Hrun;
    rewrite Hrun; simpl; (split; [done|]);
    rewrite <-?app_assoc, detect_requests_app, Hq0; done.
Qed.

(** X19.  With a scan mode other than RAPID and INTELLIGENT the run logs
    the error and ends with exit code 1; it does nothing else. *)
Theorem invalid_scan_mode_exits `{Detect.Externals} (proc : Detect.Process)
    (world : Detect.World) :
  Detect.SCAN_MODE proc ≠ "RAPID" →
  Detect.SCAN_MODE proc ≠ "INTELLIGENT" →
  Detect.run proc world =
    (Stop (Exit 1),
     [ Detect.Log info "Starting Black Duck GitLab Integration";
       Detect.Log error "Scan mode must be RAPID or INTELLIGENT" ]).
Proof.
  intros Hrapid%String.eqb_neq Hintelligent%String.eqb_neq.
  pose proof (detect_run_cases proc world) as Hrun.
  unfold Detect.preflight, Detect.when, mbind, Detect.Prog_bind, Detect.logger,
    Detect.process_exit, Detect.finish in Hrun.
  rewrite Hrapid, Hintelligent in Hrun. by simpl in Hrun.
Qed.

(** X20.  The exit code of Detect is passed on to the report only when
    Detect was found and run and ended with a code that is not positive or is
    the code for a policy violation. *)
Theorem detect_passes_good_codes_only `{Detect.Externals} (proc : Detect.Process)
    (world : Detect.World) (t t' : list Detect.Event) (detectExitCode : Z) :
  Detect.detect proc world t = (Continue detectExitCode, t') →
  (detectExitCode ≤ 0 ∨ detectExitCode = Detect.POLICY_SEVERITY) ∧
  ∃ detectPath,
    Detect.on_findOrDownloadDetect world = Resolved (Some detectPath) ∧
    Detect.on_runDetect world detectPath (Detect.detectArgs proc world)
      = Resolved (Some detectExitCode).
Proof.
  unfold Detect.detect, Detect.await_or_exit, Detect.when, mbind, Detect.Prog_bind,
    Detect.send, Detect.logger, Detect.process_exit, Detect.finish, mret, Detect.Prog_ret.
  destruct (Detect.on_findOrDownloadDetect world) as [[detectPath|]|]; simpl; try done.
  destruct (Detect.on_runDetect world detectPath _) as [[code|]|] eqn:Hrun; simpl;
    try done.
  destruct (0 <? code) eqn:Hpos; destruct (code =? Detect.POLICY_SEVERITY) eqn:Hpol;
    simpl; intros ?; simplify_eq/=; (split; [|by eauto]).
  - right. by apply Z.eqb_eq.
  - right. by apply Z.eqb_eq.
  - left. by apply Z.ltb_ge.
Qed.

(** ** Reading before writing *)

Lemma no_write_requests (t : list Event) :
  write_requests t = [] → Forall (λ r, is_write r = false) (requests t).
Proof.
  unfold write_requests. intros Hnone. apply Forall_forall. intros r Hr.
  destruct (is_write r) eqn:Hw; [|done].
  assert (r ∈ filter (λ r, is_write r = true) (requests t)) as Hin
    by (by apply list_elem_of_filter).
  rewrite Hnone in Hin. by apply elem_of_nil in Hin.
Qed.

(** X21.  A run reads before it writes.  Its requests are a series of
    requests that are no create or update (the project, the lookup on the
    Coverity server, the listing of the discussions, the diff map) followed
    by a series of create and update requests: once the first comment has
    been written, nothing is asked that could still end the run. *)
Theorem reads_precede_writes `{Externals} (proc : Process) (world : World) :
  ∃ reads writes,
    requests (trace (run proc world).2) = reads ++ writes ∧
    Forall (λ r, is_write r = false) reads ∧
    Forall (λ r, is_write r = true) writes.
Proof.
  pose proof (run_cases proc world) as Hrun. cbn zeta in Hrun.
  destruct (preflight_sends_nothing proc) as [Hnone _].
  destruct (preflight proc initial_state) as [[[]|o] s0] eqn:Hpre; simpl in Hrun, Hnone.
  - destruct (fetch proc world s0) as [[[[issues m] diff_map]|o] s1] eqn:Hfetch.
    + destruct (fetch_writes_nothing proc world _ _ _ Hfetch) as [Hw _].
      unfold write_requests in Hw at 2. rewrite Hnone in Hw.
      destruct (reconcile_requests proc world m diff_map issues s1)
        as (_ & evs & Htrace & Hwrites & _).
      exists (requests (trace s1)), (requests evs).
      rewrite Hrun. unfold logger, emit. simpl.
      rewrite Htrace, !requests_app. simpl. rewrite app_nil_r.
      split; [done|]. split; [by apply no_write_requests|done].
    + destruct (fetch_writes_nothing proc world _ _ _ Hfetch) as [Hw _].
      unfold write_requests in Hw at 2. rewrite Hnone in Hw.
      exists (requests (trace s1)), []. rewrite Hrun, app_nil_r. simpl.
      split; [done|]. split; [by apply no_write_requests|done].
  - exists [], []. rewrite Hrun. simpl. by rewrite Hnone.
Qed.

(** ** The properties on concrete inputs *)

Lemma review_filter_keeps_ids_distinct_witness :
  NoDup (id <$> [Double.positioned_K1]).
Proof.
  apply (@review_filter_keeps_ids_distinct Double.externals
           [Double.as_listed Double.positioned_K1; DetectDouble.foreign]
           [Double.positioned_K1]).
  - apply (bool_decide_unpack _). vm_compute. exact I.
  - vm_compute. reflexivity.
Defined.

Lemma only_marked_discussions_are_updated_witness :
  ∃ listing d first others,
    on_gitlabGetDiscussions
      (Double.world [Double.K1] [Double.as_listed Double.positioned_K1] [])
      = Resolved listing ∧
    d ∈ listing ∧
    api_notes d = first :: others ∧
    JS.includes (body first) (@COVERITY_COMMENT_PREFACE Double.externals) = true ∧
    Some 101 = @parseInt10 Double.externals (api_id d) ∧
    1 = note_id first.
Proof.
  apply (@only_marked_discussions_are_updated Double.externals Double.proc
           (Double.world [Double.K1] [Double.as_listed Double.positioned_K1] [])
           (@gitlab Double.externals Double.proc) (Some 101) 1
           (@coverityCreateReviewCommentMessage Double.externals Double.K1)).
  apply (list_elem_of_lookup_2 _ 5). vm_compute. reflexivity.
Defined.

Lemma no_write_without_exit_witness :
  write_requests (trace (@run Double.externals Double.proc Cases.no_listing).2) = [] ∧
  claimed (@run Double.externals Double.proc Cases.no_listing).2 = [].
Proof.
  apply (@no_write_without_exit Double.externals Double.proc Cases.no_listing).
  right. exists "503". vm_compute. reflexivity.
Defined.


Lemma incomplete_configuration_exits_witness :
  (@run Double.externals (Cases.without ["GITLAB_TOKEN"]) (Double.world [] [] [])).1
    = Stop (Exit 1) ∧
  requests
    (trace (@run Double.externals (Cases.without ["GITLAB_TOKEN"])
              (Double.world [] [] [])).2) = [].
Proof.
  apply (@incomplete_configuration_exits Double.externals
           (Cases.without ["GITLAB_TOKEN"]) (Double.world [] [] [])).
  right. right. exists "GITLAB_TOKEN". split.
  - apply (bool_decide_unpack _). vm_compute. exact I.
  - vm_compute. reflexivity.
Defined.

Lemma not_a_merge_request_returns_witness :
  (@run Double.externals Cases.on_branch (Double.world [] [] [])).1 =
    Stop (if JS.truthy (getenv Cases.on_branch "CI_COMMIT_BRANCH")
          then Returned else Exit 1) ∧
  requests (trace (@run Double.externals Cases.on_branch (Double.world [] [] [])).2) = [].
Proof.
  apply (@not_a_merge_request_returns Double.externals Cases.on_branch
           (Double.world [] [] [])).
  - vm_compute. reflexivity.
  - vm_compute. reflexivity.
  - intros v Hv. unfold required_variables in Hv.
    repeat (apply elem_of_cons in Hv as [->|Hv]; [vm_compute; reflexivity|]).
    by apply elem_of_nil in Hv.
  - vm_compute. reflexivity.
Defined.

Lemma degraded_mode_skips_lookup_witness :
  let proc := Cases.without ["COV_USER"] in
  let world := Double.world [Double.K1] [] [] in
  filter (λ r, is_lookup r = true)
    (requests (trace (@run Double.externals proc world).2)) = [] ∧
  (∀ answer, @run Double.externals proc (with_lookup world answer)
             = @run Double.externals proc world) ∧
  (∀ s issues m diff_map s1,
     @fetch Double.externals proc world s = (Continue (issues, m, diff_map), s1) →
     m = ∅).
Proof.
  apply (@degraded_mode_skips_lookup Double.externals (Cases.without ["COV_USER"])
           (Double.world [Double.K1] [] [])).
  vm_compute. reflexivity.
Defined.

Lemma contained_key_matches_too_witness :
  (comment_match Double.K1 Double.unpositioned_K1 = true →
   comment_match Cases.K Double.unpositioned_K1 = true) ∧
  (mainEventLineNumber Cases.K = mainEventLineNumber Double.K1 →
   positioned_match Double.K1 Double.unpositioned_K1 = true →
   positioned_match Cases.K Double.unpositioned_K1 = true).
Proof.
  apply (contained_key_matches_too Cases.K Double.K1 Double.unpositioned_K1).
  vm_compute. reflexivity.
Defined.

Lemma unchanged_positioned_comment_is_kept_witness :
  requests
    (trace (@process_issue Double.externals Double.proc (Double.world [] [] []) ∅ []
              Double.K1 (start [Cases.reviewed_K1])))
  = requests (trace (start [Cases.reviewed_K1])).
Proof.
  apply (@unchanged_positioned_comment_is_kept Double.externals Double.proc
           (Double.world [] [] []) ∅ [] Double.K1 (start [Cases.reviewed_K1])
           Cases.reviewed_K1).
  - apply (bool_decide_unpack _). vm_compute. exact I.
  - vm_compute. reflexivity.
  - intros e He _. apply list_elem_of_singleton in He as ->. reflexivity.
Defined.

Lemma detect_exit_is_early_witness :
  2 - 1 = 1 ∧
  Forall (λ r, Detect.is_before_report r = true)
    (Detect.requests
       (@Detect.run DetectDouble.externals (DetectDouble.proc None)
          (DetectDouble.world 2 [] [])).2).
Proof.
  apply (@detect_exit_is_early DetectDouble.externals (DetectDouble.proc None)
           (DetectDouble.world 2 [] []) (2 - 1)).
  vm_compute. reflexivity.
Defined.

Lemma other_modes_stay_local_witness :
  Forall (λ r, Detect.is_local r = true)
    (Detect.requests
       (@Detect.run DetectDouble.externals (DetectDouble.proc (Some "INTELLIGENT"))
          (DetectDouble.world 0 [] [])).2).
Proof.
  apply (@other_modes_stay_local DetectDouble.externals
           (DetectDouble.proc (Some "INTELLIGENT")) (DetectDouble.world 0 [] [])).
  vm_compute. discriminate.
Defined.

Lemma managed_comment_is_updated_witness :
  ∃ first rest,
    Detect.review_filter [DetectDouble.foreign; DetectDouble.managed]
      = Resolved (first :: rest) ∧
    JS.includes (body (root first)) Detect.COMMENT_PREFACE = true ∧
    Detect.requests
      (@Detect.comment DetectDouble.externals (DetectDouble.proc None)
         (DetectDouble.world 0 [] [DetectDouble.foreign; DetectDouble.managed])
         "new report" []).2 =
      Detect.requests [] ++
      [ Detect.gitlabGetDiscussions
          (@Detect.gitlab DetectDouble.externals (DetectDouble.proc None));
        Detect.gitlabUpdateNote
          (@Detect.gitlab DetectDouble.externals (DetectDouble.proc None))
          (@Detect.parseInt10 DetectDouble.externals (id first))
          (note_id (root first)) (Detect.message "new report") ].
Proof.
  apply (@managed_comment_is_updated DetectDouble.externals (DetectDouble.proc None)
           (DetectDouble.world 0 [] [DetectDouble.foreign; DetectDouble.managed])
           "new report" "earlier report" []
           [DetectDouble.foreign; DetectDouble.managed] DetectDouble.managed
           {| note_id := 9; body := Detect.message "earlier report"; position := None |}
           []).
  - reflexivity.
  - repeat constructor; discriminate.
  - apply (list_elem_of_lookup_2 _ 1). reflexivity.
  - reflexivity.
  - reflexivity.
Defined.

Lemma no_enabled_policy_aborts_witness :
  (@Detect.run DetectDouble.externals (DetectDouble.proc None) Cases.no_policy).1
    = Stop (Exit 1) ∧
  Detect.requests
    (@Detect.run DetectDouble.externals (DetectDouble.proc None) Cases.no_policy).2 =
    [ Detect.getBearerToken (Detect.BLACKDUCK_URL (DetectDouble.proc None))
        (Detect.BLACKDUCK_API_TOKEN (DetectDouble.proc None));
      Detect.checkIfEnabledBlackduckPoliciesExist
        (Detect.BLACKDUCK_URL (DetectDouble.proc None))
        (Detect.BLACKDUCK_API_TOKEN (DetectDouble.proc None)) "bearer" ].
Proof.
  apply (@no_enabled_policy_aborts DetectDouble.externals (DetectDouble.proc None)
           Cases.no_policy "bearer").
  - vm_compute. reflexivity.
  - vm_compute. reflexivity.
  - reflexivity.
  - left. reflexivity.
Defined.

Lemma invalid_scan_mode_exits_witness :
  @Detect.run DetectDouble.externals (DetectDouble.proc (Some "FAST"))
    (DetectDouble.world 0 [] []) =
    (Stop (Exit 1),
     [ Detect.Log info "Starting Black Duck GitLab Integration";
       Detect.Log error "Scan mode must be RAPID or INTELLIGENT" ]).
Proof.
  apply (@invalid_scan_mode_exits DetectDouble.externals
           (DetectDouble.proc (Some "FAST")) (DetectDouble.world 0 [] [])).
  - vm_compute. discriminate.
  - vm_compute. discriminate.
Defined.

Lemma detect_passes_good_codes_only_witness :
  (3 ≤ 0 ∨ 3 = @Detect.POLICY_SEVERITY DetectDouble.externals) ∧
  ∃ detectPath,
    Detect.on_findOrDownloadDetect (DetectDouble.world 3 [] [])
      = Resolved (Some detectPath) ∧
    Detect.on_runDetect (DetectDouble.world 3 [] []) detectPath
      (@Detect.detectArgs DetectDouble.externals (DetectDouble.proc None)
         (DetectDouble.world 3 [] []))
      = Resolved (Some 3).
Proof.
  apply (@detect_passes_good_codes_only DetectDouble.externals (DetectDouble.proc None)
           (DetectDouble.world 3 [] []) []
           (@Detect.detect DetectDouble.externals (DetectDouble.proc None)
              (DetectDouble.world 3 [] []) []).2 3).
  vm_compute. reflexivity.
Defined.
